(** * x-mlps-pytorch: the normalized feedforward stack of [x_mlps_pytorch/nff.py]

    A shallow embedding of [Scale], [L2Norm], [NormLinear], [Residual],
    [nFeedforward] and [nFeedforwards], and the properties of their
    construction and forward pass.

    Modelling conventions.
    - A tensor of shape [[B1; ...; Bk; d]] is its batch shape, its feature
      size [d] and the list of its feature vectors in row-major order.
    - A weight matrix of shape [[dim_out; dim_in]] is the list of its rows.
    - An exception raised by Python or by the tensor library is [None].
    - The initial (random) content of the k-th [nn.Linear] created during a
      construction is an argument: an entry function [nat -> nat -> R].
    - Tensor entries and float hyper-parameters are real numbers ([R]), and
      the operations on them are exact.  The program computes in binary32
      and binary64, so the statements made on this model are of two kinds:
      statements on structure (which computation is run on which operands,
      shapes, raised errors, values that are exact in binary arithmetic such
      as 0 and 1/2), which carry over bit for bit; and statements on norms
      and values, which carry over up to rounding and are made under
      hypotheses that keep the operands in the range of float32
      ([norm_max], [f32_normal]).
    - [expand_factor] is a rational, since [int( )] is taken of its product;
      the product is exact for the integer factors the statements are
      about.
    - Where rounding or range decides a property, the computation is also
      written in binary floating point ([spec_float]) and evaluated on
      concrete inputs. *)

From Stdlib Require Import Reals Lra Lia List ZArith QArith Qround Bool Arith SpecFloat.
Import ListNotations.
Open Scope R_scope.

Set Implicit Arguments.

(** ** Helper functions *)

(** [exists(v)]: [v is not None]. *)
Definition exists_ {A : Type} (v : option A) : bool :=
  match v with Some _ => true | None => false end.

(** [default(v, d)]: [v if exists(v) else d]. *)
Definition default {A : Type} (v : option A) (d : A) : A :=
  match v with Some a => a | None => d end.

(** A hyper-parameter is a single value or a Python tuple of values. *)
Inductive hparam (A : Type) : Type :=
| Scalar (v : A)
| Tuple (l : list A).

Arguments Scalar {A} v.
Arguments Tuple {A} l.

(** [cast_tuple(t, length)]: a tuple is kept, anything else is repeated
    [length] times; the assertion on the length fails with [None]. *)
Definition cast_tuple {A : Type} (t : hparam A) (length : nat) : option (list A) :=
  let out := match t with
             | Tuple l => l
             | Scalar v => repeat v length
             end in
  if (List.length out =? length)%nat then Some out else None.

(** Sequencing of computations that may raise. *)
Definition bind {A B : Type} (m : option A) (k : A -> option B) : option B :=
  match m with Some a => k a | None => None end.

Notation "'do' x <- m ; k" := (bind m (fun x => k))
  (at level 10, x name, m at level 100, k at level 200).

(** ** Vectors along the feature axis *)

Definition vec := list R.

Fixpoint sumsq (v : vec) : R :=
  match v with
  | [] => 0
  | x :: v' => x * x + sumsq v'
  end.

(** The L2 norm of a vector. *)
Definition norm2 (v : vec) : R := sqrt (sumsq v).

Fixpoint dot (u v : vec) : R :=
  match u, v with
  | a :: u', b :: v' => a * b + dot u' v'
  | _, _ => 0
  end.

Definition map2 {A B C : Type} (f : A -> B -> C) (u : list A) (v : list B) : list C :=
  map (fun p => f (fst p) (snd p)) (combine u v).

(** The default [eps] of [F.normalize]: 1e-12. *)
Definition eps : R := / 10 ^ 12.

(** [F.normalize] along one vector: [v / max(||v||_2, eps)], in exact
    arithmetic. *)
Definition normalize (v : vec) : vec :=
  let denom := Rmax (norm2 v) eps in
  map (fun x => x / denom) v.

(** Broadcasting of two trailing sizes: equal, or one of them is 1. *)
Definition bdim (n m : nat) : option nat :=
  if (n =? m)%nat then Some n
  else if (n =? 1)%nat then Some m
  else if (m =? 1)%nat then Some n
  else None.

(** A vector expanded to size [n] (a vector of size [n] is kept, a vector of
    size 1 is repeated). *)
Definition expand (n : nat) (v : vec) : vec :=
  if (length v =? n)%nat then v else repeat (hd 0 v) n.

(** ** Weight matrices *)

Definition matrix := list vec.

(** The matrix of shape [[rows; cols]] whose entries are given by [w]. *)
Definition mk_matrix (rows cols : nat) (w : nat -> nat -> R) : matrix :=
  map (fun i => map (w i) (seq 0 cols)) (seq 0 rows).

Definition ncols (W : matrix) : nat :=
  match W with [] => 0%nat | r :: _ => length r end.

Definition col (W : matrix) (j : nat) : vec := map (fun r => nth j r 0) W.

Definition columns (n : nat) (W : matrix) : list vec := map (col W) (seq 0 n).

(** [F.normalize(W, dim = -1)]: every row is normalized. *)
Definition l2norm_rows (W : matrix) : matrix := map normalize W.

(** [F.normalize(W, dim = 0)]: every column is normalized. *)
Definition l2norm_cols (W : matrix) : matrix :=
  let denoms := map (fun j => Rmax (norm2 (col W j)) eps) (seq 0 (ncols W)) in
  map (fun r => map2 Rdiv r denoms) W.

(** [l2norm(t, dim)] on a weight matrix; the program only uses [dim = -1]
    and [dim = 0]. *)
Definition l2norm_mat (W : matrix) (dim : Z) : matrix :=
  if (dim =? 0)%Z then l2norm_cols W else l2norm_rows W.

(** The vectors along the axis [dim] of a matrix with [n] columns. *)
Definition lines (n : nat) (W : matrix) (dim : Z) : list vec :=
  if (dim =? 0)%Z then columns n W else W.

Definition rect (n : nat) (W : matrix) : Prop :=
  Forall (fun r => length r = n) W.

(** ** Tensors *)

Record tensor : Type := mkT {
  bshape : list nat;   (* the leading (batch) sizes *)
  fdim : nat;          (* the size of the trailing (feature) axis *)
  rows : list vec      (* the feature vectors *)
}.

Definition shape (t : tensor) : list nat := bshape t ++ [fdim t].

Definition wf (t : tensor) : Prop :=
  length (rows t) = fold_right Nat.mul 1%nat (bshape t) /\
  Forall (fun r => length r = fdim t) (rows t).

(** [l2norm(t)]: [F.normalize(t, dim = -1)]. *)
Definition l2norm (t : tensor) : tensor :=
  mkT (bshape t) (fdim t) (map normalize (rows t)).

(** [F.linear(x, W)] for a weight with [in_features] columns. *)
Definition linear (W : matrix) (in_features : nat) (x : tensor) : option tensor :=
  if (fdim x =? in_features)%nat
  then Some (mkT (bshape x) (length W)
               (map (fun r => map (fun wrow => dot wrow r) W) (rows x)))
  else None.

(** [x * s] for a tensor [x] and a one-dimensional tensor [s]. *)
Definition mul_vec (x : tensor) (s : vec) : option tensor :=
  do n <- bdim (fdim x) (length s);
  Some (mkT (bshape x) n
          (map (fun r => map2 Rmult (expand n r) (expand n s)) (rows x))).

(** [x * c] for a number [c]. *)
Definition mul_scalar (x : tensor) (c : R) : tensor :=
  mkT (bshape x) (fdim x) (map (map (fun a => a * c)) (rows x)).

(** Broadcasting of two batch shapes, read from the last axis to the
    first: the sizes are paired from the right, and the longer shape keeps
    its extra leading sizes. *)
Fixpoint broadcast_rev (ra rb : list nat) : option (list nat) :=
  match ra, rb with
  | [], _ => Some rb
  | _, [] => Some ra
  | n :: ra', m :: rb' =>
      do k <- bdim n m;
      do rest <- broadcast_rev ra' rb';
      Some (k :: rest)
  end.

Definition broadcast_shapes (a b : list nat) : option (list nat) :=
  option_map (@rev nat) (broadcast_rev (rev a) (rev b)).

(** A batch shape completed on the left with sizes 1, up to [k] axes. *)
Definition align_shape (k : nat) (bs : list nat) : list nat :=
  repeat 1%nat (k - length bs) ++ bs.

(** [l] cut into [n] consecutive blocks of [size] elements. *)
Fixpoint chunks {A : Type} (n size : nat) (l : list A) : list (list A) :=
  match n with
  | O => []
  | S n' => firstn size l :: chunks n' size (skipn size l)
  end.

(** The feature vectors of a tensor of batch shape [from], in row-major
    order, expanded to the batch shape [to]: along an axis of the same size
    the blocks are expanded one by one, along an axis of size 1 the single
    block is repeated. *)
Fixpoint expand_rows (from to : list nat) (rws : list vec) : list vec :=
  match from, to with
  | n :: from', m :: to' =>
      let blocks := map (expand_rows from' to')
                      (chunks n (fold_right Nat.mul 1%nat from') rws) in
      if (n =? m)%nat then concat blocks
      else concat (repeat (hd [] blocks) m)
  | _, _ => rws
  end.

(** An elementwise binary operation on two tensors, with the broadcasting
    of the tensor library along the batch axes and the feature axis. *)
Definition tmap2 (f : R -> R -> R) (a b : tensor) : option tensor :=
  do bs <- broadcast_shapes (bshape a) (bshape b);
  do n <- bdim (fdim a) (fdim b);
  let k := length bs in
  let ra := expand_rows (align_shape k (bshape a)) bs (rows a) in
  let rb := expand_rows (align_shape k (bshape b)) bs (rows b) in
  Some (mkT bs n (map2 (fun r s => map2 f (expand n r) (expand n s)) ra rb)).

(** [start.lerp(end, weight)]: [start + weight * (end - start)]. *)
Definition lerp (start end_ : tensor) (weight : vec) : option tensor :=
  do d <- tmap2 Rminus end_ start;
  do wd <- mul_vec d weight;
  tmap2 Rplus start wd.

(** [F.pad(x, (0, 1), value = c)]. *)
Definition pad (x : tensor) (c : R) : tensor :=
  mkT (bshape x) (S (fdim x)) (map (fun r => r ++ [c]) (rows x)).

Definition sigmoid (z : R) : R := / (1 + exp (- z)).

(** [F.silu]. *)
Definition silu_ (z : R) : R := z * sigmoid z.

Definition silu (x : tensor) : tensor :=
  mkT (bshape x) (fdim x) (map (map silu_) (rows x)).

(** ** Scale *)

Record Scale : Type := mkScale {
  Scale_dim : nat;
  Scale_scale : vec;          (* the learned parameter [self.scale] *)
  Scale_forward_scale : R
}.

(** [Scale.__init__], in exact arithmetic; the float division
    [init / scale] raises when [scale] is zero. *)
Definition Scale_init (dim : nat) (init scale : R) : option Scale :=
  if Req_dec_T scale 0 then None
  else Some (mkScale dim (map (fun one => one * scale) (repeat 1 dim)) (init / scale)).

(** [Scale.forward]. *)
Definition Scale_forward (s : Scale) : vec :=
  map (fun p => p * Scale_forward_scale s) (Scale_scale s).

(** ** NormLinear *)

Record NormLinear : Type := mkNL {
  NL_dim : nat;
  NL_dim_out : nat;
  NL_parametrize : bool;
  NL_l2norm : Z;     (* the axis of [self.l2norm] *)
  NL_param : matrix  (* the stored parameter: [parametrizations.weight.original]
                        when parametrized, [linear.weight] otherwise *)
}.

(** The property [weight]: [self.linear.weight], which a parametrized
    linear layer recomputes from the stored parameter on each read. *)
Definition NormLinear_weight (nl : NormLinear) : matrix :=
  if NL_parametrize nl then l2norm_mat (NL_param nl) (NL_l2norm nl)
  else NL_param nl.

Definition set_param (nl : NormLinear) (W : matrix) : NormLinear :=
  mkNL (NL_dim nl) (NL_dim_out nl) (NL_parametrize nl) (NL_l2norm nl) W.

(** [NormLinear.norm_weights_]. *)
Definition NormLinear_norm_weights_ (nl : NormLinear) : NormLinear :=
  if NL_parametrize nl then
    let normed := NormLinear_weight nl in
    set_param nl normed
  else
    set_param nl (l2norm_mat (NormLinear_weight nl) (NL_l2norm nl)).

(** [NormLinear.__init__]; [w] is the initial content of [nn.Linear]. *)
Definition NormLinear_init (w : nat -> nat -> R) (dim dim_out : nat)
    (norm_dim_in parametrize : bool) : NormLinear :=
  NormLinear_norm_weights_
    (mkNL dim dim_out parametrize (if norm_dim_in then (-1)%Z else 0%Z)
       (mk_matrix dim_out dim w)).

(** [NormLinear.forward]. *)
Definition NormLinear_forward (nl : NormLinear) (x : tensor) : option tensor :=
  linear (NormLinear_weight nl) (NL_dim nl) x.

(** ** Residual *)

(** What a wrapped module returns: a tensor, or a tuple whose first
    element is a tensor. *)
Inductive output (X : Type) : Type :=
| Plain (t : tensor)
| Tupled (t : tensor) (rest : X).

Arguments Plain {X} t.
Arguments Tupled {X} t rest.

Record Residual (F : Type) : Type := mkResidual {
  fn : F;
  branch_scale : Scale
}.

(** [dim ** -0.5]; raises for [dim = 0]. *)
Definition pow_neg_half (dim : nat) : option R :=
  if (dim =? 0)%nat then None else Some (/ sqrt (INR dim)).

(** [Residual.__init__]. *)
Definition Residual_init {F : Type} (fn : F) (dim : nat) (init : R)
    (scale : option R) : option (Residual F) :=
  do d <- pow_neg_half dim;
  do s <- Scale_init dim init (default scale d);
  Some (mkResidual fn s).

Section ResidualForward.

(** The wrapped module, its keyword arguments and the rest of its output
    are arbitrary; [call] runs the wrapped module. *)
Variables F K X : Type.
Variable call : F -> tensor -> K -> option (output X).

(** The interpolation of [Residual.forward], before the last [l2norm]. *)
Definition Residual_blend (r : Residual F) (residual out : tensor) : option tensor :=
  lerp residual (l2norm out) (Scale_forward (branch_scale r)).

(** [Residual.forward]. *)
Definition Residual_forward (r : Residual F) (x : tensor) (kwargs : K)
    : option (output X) :=
  let residual := x in
  do out <- call (fn r) x kwargs;
  let tuple_output := match out with Tupled _ _ => true | Plain _ => false end in
  let rest := match out with Tupled _ rest => Some rest | Plain _ => None end in
  let out := match out with Tupled out _ => out | Plain out => out end in
  let out := l2norm out in
  do out <- lerp residual out (Scale_forward (branch_scale r));
  let out := l2norm out in
  Some (match tuple_output, rest with
        | true, Some rest => Tupled out rest
        | _, _ => Plain out
        end).

End ResidualForward.

(** ** nFeedforward *)

Record nFeedforward : Type := mkFF {
  ff_dim : nat;
  ff_expand_factor : Q;
  ff_dim_inner : nat;
  to_hidden : NormLinear;
  to_gate : NormLinear;
  hidden_scale : Scale;
  gate_scale : Scale;
  to_out : NormLinear
}.

(** Python's [int( )] of a number: truncation toward zero, here of an
    exact fraction. *)
Definition py_int (q : Q) : Z := Z.quot (Qnum q) (Zpos (Qden q)).

(** [nFeedforward.__init__].  [w k] is the initial content of the [k]-th
    linear layer created; this block creates the layers [k], [k+1], [k+2].
    A negative [dim_inner] makes [nn.Linear] raise. *)
Definition nFeedforward_init (w : nat -> nat -> nat -> R) (k : nat)
    (dim : nat) (expand_factor : Q) (manual_norm_weights : bool)
    (s_hidden_init s_hidden_scale s_gate_init s_gate_scale : R)
    : option nFeedforward :=
  let NormLinear_ := fun w0 d d_out norm_dim_in =>
    NormLinear_init w0 d d_out norm_dim_in (negb manual_norm_weights) in
  let dim_inner := py_int (inject_Z (Z.of_nat dim) * expand_factor * 2 / 3)%Q in
  if (dim_inner <? 0)%Z then None else
  let dim_inner := Z.to_nat dim_inner in
  let to_hidden := NormLinear_ (w k) dim dim_inner true in
  let to_gate := NormLinear_ (w (k + 1)%nat) dim dim_inner true in
  do hidden_scale <- Scale_init dim_inner s_hidden_init s_hidden_scale;
  do gate_scale <- Scale_init dim_inner s_gate_init s_gate_scale;
  let to_out := NormLinear_ (w (k + 2)%nat) dim_inner dim false in
  Some (mkFF dim expand_factor dim_inner to_hidden to_gate hidden_scale gate_scale to_out).

(** [nFeedforward.forward]. *)
Definition nFeedforward_forward (ff : nFeedforward) (x : tensor) : option tensor :=
  do hidden <- NormLinear_forward (to_hidden ff) x;
  do gate <- NormLinear_forward (to_gate ff) x;
  do hidden <- mul_vec hidden (Scale_forward (hidden_scale ff));
  do gate <- mul_vec gate (Scale_forward (gate_scale ff));
  let gate := mul_scalar gate (sqrt (INR (ff_dim ff))) in
  do hidden <- tmap2 Rmult (silu gate) hidden;
  NormLinear_forward (to_out ff) hidden.

(** ** nFeedforwards *)

(** The keyword arguments of [nFeedforwards.__init__]. *)
Record config : Type := mkConfig {
  cfg_dim : nat;
  cfg_depth : nat;
  cfg_dim_in : option nat;
  cfg_dim_out : option nat;
  cfg_ff_expand_factor : Q;
  cfg_input_preserve_magnitude : bool;
  cfg_constant_shift : R;
  cfg_manual_norm_weights : bool;
  cfg_alpha_init : option R;
  cfg_alpha_attn_init : hparam (option R);
  cfg_alpha_attn_scale : hparam (option R);
  cfg_alpha_ff_init : hparam (option R);
  cfg_alpha_ff_scale : hparam (option R);
  cfg_s_ff_hidden_init : hparam R;
  cfg_s_ff_hidden_scale : hparam R;
  cfg_s_ff_gate_init : hparam R;
  cfg_s_ff_gate_scale : hparam R
}.

Record nFeedforwards : Type := mkStack {
  nff_dim : nat;
  nff_depth : nat;
  nff_ff_expand_factor : Q;
  layers : list (Residual nFeedforward);
  nff_input_preserve_magnitude : bool;
  nff_constant_shift : R;
  need_proj_in : bool;
  proj_in : option NormLinear;
  proj_in_scale : option Scale;
  need_proj_out : bool;
  proj_out : option NormLinear;
  proj_out_scale : option Scale
}.

(** One element of [zip( *scale_hparams)]. *)
Definition layer_hparams : Type :=
  (option R * (option R * (option R * (option R * (R * (R * (R * R)))))))%type.

(** The loop of [nFeedforwards.__init__] that creates the layers; [k]
    counts the linear layers created so far. *)
Fixpoint build_layers (w : nat -> nat -> nat -> R) (k : nat) (dim : nat)
    (ff_expand_factor : Q) (manual_norm_weights : bool) (alpha_init : R)
    (hps : list layer_hparams) : option (list (Residual nFeedforward)) :=
  match hps with
  | [] => Some []
  | (alpha_attn_init_, (alpha_attn_scale_, (alpha_ff_init_, (alpha_ff_scale_,
      (s_ff_hidden_init_, (s_ff_hidden_scale_, (s_ff_gate_init_, s_ff_gate_scale_))))))) :: hps' =>
      do ff <- nFeedforward_init w k dim ff_expand_factor manual_norm_weights
                 s_ff_hidden_init_ s_ff_hidden_scale_ s_ff_gate_init_ s_ff_gate_scale_;
      do d <- pow_neg_half dim;
      do ff_with_residual <- Residual_init ff dim (default alpha_ff_init_ alpha_init)
                               (Some (default alpha_ff_scale_ d));
      do rest <- build_layers w (k + 3) dim ff_expand_factor manual_norm_weights
                   alpha_init hps';
      Some (ff_with_residual :: rest)
  end.

(** [nFeedforwards.__init__]. *)
Definition nFeedforwards_init (w : nat -> nat -> nat -> R) (c : config)
    : option nFeedforwards :=
  let dim := cfg_dim c in
  let depth := cfg_depth c in
  let NormLinear_ := fun w0 d d_out norm_dim_in =>
    NormLinear_init w0 d d_out norm_dim_in (negb (cfg_manual_norm_weights c)) in
  do alpha_init <- (if (depth =? 0)%nat then None
                    else Some (default (cfg_alpha_init c) (1 / INR depth)));
  do alpha_attn_init <- cast_tuple (cfg_alpha_attn_init c) depth;
  do alpha_attn_scale <- cast_tuple (cfg_alpha_attn_scale c) depth;
  do alpha_ff_init <- cast_tuple (cfg_alpha_ff_init c) depth;
  do alpha_ff_scale <- cast_tuple (cfg_alpha_ff_scale c) depth;
  do s_ff_hidden_init <- cast_tuple (cfg_s_ff_hidden_init c) depth;
  do s_ff_hidden_scale <- cast_tuple (cfg_s_ff_hidden_scale c) depth;
  do s_ff_gate_init <- cast_tuple (cfg_s_ff_gate_init c) depth;
  do s_ff_gate_scale <- cast_tuple (cfg_s_ff_gate_scale c) depth;
  let scale_hparams :=
    combine alpha_attn_init (combine alpha_attn_scale (combine alpha_ff_init
      (combine alpha_ff_scale (combine s_ff_hidden_init (combine s_ff_hidden_scale
        (combine s_ff_gate_init s_ff_gate_scale)))))) in
  do layers <- build_layers w 0 dim (cfg_ff_expand_factor c)
                 (cfg_manual_norm_weights c) alpha_init scale_hparams;
  let k := (3 * depth)%nat in
  let need_proj_in := exists_ (cfg_dim_in c) || cfg_input_preserve_magnitude c in
  do proj_in_scale <- (if need_proj_in then option_map Some (Scale_init dim 1 1)
                       else Some None);
  let proj_in :=
    if need_proj_in then
      let dim_in := default (cfg_dim_in c) dim in
      let dim_constant_shift := if cfg_input_preserve_magnitude c then 1%nat else 0%nat in
      Some (NormLinear_init (w k) (dim_in + dim_constant_shift) dim false true)
    else None in
  let k := if need_proj_in then S k else k in
  let need_proj_out := exists_ (cfg_dim_out c) in
  do proj_out_scale <- match cfg_dim_out c with
                       | Some dim_out =>
                           do d <- pow_neg_half dim;
                           option_map Some (Scale_init dim_out 1 d)
                       | None => Some None
                       end;
  let proj_out :=
    match cfg_dim_out c with
    | Some dim_out => Some (NormLinear_ (w k) dim dim_out true)
    | None => None
    end in
  Some (mkStack dim depth (cfg_ff_expand_factor c) layers
          (cfg_input_preserve_magnitude c) (cfg_constant_shift c)
          need_proj_in proj_in proj_in_scale need_proj_out proj_out proj_out_scale).

(** A feedforward block called as a wrapped module: no keyword argument,
    and the output is a tensor. *)
Definition call_ff (ff : nFeedforward) (x : tensor) (_ : unit) : option (output unit) :=
  option_map Plain (nFeedforward_forward ff x).

(** The loop of [nFeedforwards.forward] over the layers. *)
Fixpoint run_layers (ls : list (Residual nFeedforward)) (x : tensor) : option tensor :=
  match ls with
  | [] => Some x
  | ff :: ls' =>
      do out <- Residual_forward call_ff ff x tt;
      match out with
      | Plain x' => run_layers ls' x'
      | Tupled _ _ => None
      end
  end.

(** [nFeedforwards.forward]. *)
Definition nFeedforwards_forward (s : nFeedforwards) (x : tensor) : option tensor :=
  let x := if nff_input_preserve_magnitude s
           then l2norm (pad x (nff_constant_shift s)) else x in
  do x <- (if need_proj_in s then
             match proj_in s, proj_in_scale s with
             | Some p, Some sc =>
                 do y <- NormLinear_forward p x;
                 do y <- mul_vec y (Scale_forward sc);
                 Some (l2norm y)
             | _, _ => None
             end
           else Some x);
  do x <- run_layers (layers s) x;
  if need_proj_out s then
    match proj_out s, proj_out_scale s with
    | Some p, Some sc =>
        do y <- NormLinear_forward p x;
        mul_vec y (Scale_forward sc)
    | _, _ => None
    end
  else Some x.

(** The [NormLinear] modules of a stack, as [parent_module.modules()]
    enumerates them. *)
Definition ff_norm_linears (ff : nFeedforward) : list NormLinear :=
  [to_hidden ff; to_gate ff; to_out ff].

Definition opt_list {A : Type} (o : option A) : list A :=
  match o with Some a => [a] | None => [] end.

Definition norm_linears (s : nFeedforwards) : list NormLinear :=
  flat_map (fun r => ff_norm_linears (fn r)) (layers s)
  ++ opt_list (proj_in s) ++ opt_list (proj_out s).

(** [norm_weights_(parent_module)] on a feedforward block and on a stack:
    every [NormLinear] among the modules is renormalized. *)
Definition nFeedforward_norm_weights_ (ff : nFeedforward) : nFeedforward :=
  mkFF (ff_dim ff) (ff_expand_factor ff) (ff_dim_inner ff)
    (NormLinear_norm_weights_ (to_hidden ff)) (NormLinear_norm_weights_ (to_gate ff))
    (hidden_scale ff) (gate_scale ff) (NormLinear_norm_weights_ (to_out ff)).

(** [nFeedforwards.norm_weights_]. *)
Definition nFeedforwards_norm_weights_ (s : nFeedforwards) : nFeedforwards :=
  mkStack (nff_dim s) (nff_depth s) (nff_ff_expand_factor s)
    (map (fun r => mkResidual (nFeedforward_norm_weights_ (fn r)) (branch_scale r))
       (layers s))
    (nff_input_preserve_magnitude s) (nff_constant_shift s)
    (need_proj_in s) (option_map NormLinear_norm_weights_ (proj_in s)) (proj_in_scale s)
    (need_proj_out s) (option_map NormLinear_norm_weights_ (proj_out s))
    (proj_out_scale s).

(** ** The program in binary floating point

    Python floats are binary64 numbers and the tensors of the program hold
    binary32 numbers.  The computations below are the ones of the program
    whose rounding or range decides a property; they are written with the
    IEEE 754 operations of the standard library ([spec_float], rounding to
    nearest even) and evaluate on concrete inputs. *)

Definition b64_mul : spec_float -> spec_float -> spec_float := SFmul 53 1024.
Definition b64_div : spec_float -> spec_float -> spec_float := SFdiv 53 1024.
Definition b32_add : spec_float -> spec_float -> spec_float := SFadd 24 128.
Definition b32_sub : spec_float -> spec_float -> spec_float := SFsub 24 128.
Definition b32_mul : spec_float -> spec_float -> spec_float := SFmul 24 128.
Definition b32_div : spec_float -> spec_float -> spec_float := SFdiv 24 128.
Definition b32_sqrt : spec_float -> spec_float := SFsqrt 24 128.

(** The binary64 number nearest to the fraction [n / d]: the value of a
    Python float literal, or of an [int] converted to [float]. *)
Definition b64_of_ratio (n : Z) (d : positive) : spec_float :=
  match n with
  | Z0 => S754_zero false
  | Zpos p => b64_div (S754_finite false p 0) (S754_finite false d 0)
  | Zneg p => b64_div (S754_finite true p 0) (S754_finite false d 0)
  end.

Definition b64_of_Z (z : Z) : spec_float := b64_of_ratio z 1.

(** A Python float converted to the element type of a float32 tensor. *)
Definition b32_of_b64 (x : spec_float) : spec_float :=
  match x with
  | S754_finite s m e => binary_round 24 128 s m e
  | _ => x
  end.

(** The float32 tensor element nearest to the fraction [n / d]. *)
Definition b32 (n : Z) (d : positive) : spec_float := b32_of_b64 (b64_of_ratio n d).

(** The [eps] of [F.normalize] as a float32 number. *)
Definition b32_eps : spec_float := b32 1 (10 ^ 12).

(** [clamp_min]: the larger of two numbers; a NaN is kept. *)
Definition b32_max (x y : spec_float) : spec_float := if SFltb x y then y else x.

(** [F.normalize] along one float32 vector.  The squares are summed from
    left to right; the evaluations below are on vectors for which the order
    of the sum does not matter. *)
Definition normalize_b32 (v : list spec_float) : list spec_float :=
  let norm :=
    b32_sqrt (fold_left (fun acc x => b32_add acc (b32_mul x x)) v (S754_zero false)) in
  let denom := b32_max norm b32_eps in
  map (fun x => b32_div x denom) v.

(** [torch.lerp] on one float32 entry: [start + weight * (end - start)] for
    a weight below 1/2 in magnitude, [end - (end - start) * (1 - weight)]
    otherwise. *)
Definition lerp_b32 (start end_ weight : spec_float) : spec_float :=
  let diff := b32_sub end_ start in
  if SFltb (SFabs weight) (b32 1 2)
  then b32_add start (b32_mul weight diff)
  else b32_sub end_ (b32_mul diff (b32_sub (b32 1 1) weight)).

(** The last two steps of [Residual.forward] on one feature vector, for a
    normalized branch output [out] and a step [w] on every channel. *)
Definition Residual_blend_b32 (x out : list spec_float) (w : spec_float)
    : list spec_float :=
  normalize_b32 (map2 (fun a b => lerp_b32 a b w) x out).

(** [int( )] of a Python float: truncation toward zero; an infinity or a
    NaN raises. *)
Definition py_int_b64 (x : spec_float) : option Z :=
  match x with
  | S754_zero _ => Some 0%Z
  | S754_finite s m e => Some (cond_Zopp s (Z.shiftl (Zpos m) e))
  | _ => None
  end.

(** [int(dim * expand_factor * 2 / 3)] of [nFeedforward.__init__] for a
    float [expand_factor]. *)
Definition dim_inner_b64 (dim : nat) (expand_factor : spec_float) : option Z :=
  py_int_b64
    (b64_div (b64_mul (b64_mul (b64_of_Z (Z.of_nat dim)) expand_factor) (b64_of_Z 2))
       (b64_of_Z 3)).

(** [Scale] with its learned vector as a float32 tensor.  [init / scale] is
    a division of Python floats, which raises for a zero [scale]; a product
    of the tensor and a Python float is taken in binary32. *)
Record Scale_b32 : Type := mkScale_b32 {
  Scale_b32_scale : list spec_float;
  Scale_b32_forward_scale : spec_float
}.

Definition Scale_init_b32 (dim : nat) (init scale : spec_float) : option Scale_b32 :=
  match scale with
  | S754_zero _ => None
  | _ =>
      Some (mkScale_b32
              (map (fun one => b32_mul one (b32_of_b64 scale)) (repeat (b32 1 1) dim))
              (b64_div init scale))
  end.

Definition Scale_forward_b32 (s : Scale_b32) : list spec_float :=
  map (fun p => b32_mul p (b32_of_b64 (Scale_b32_forward_scale s)))
    (Scale_b32_scale s).

(** ** Predicates and configurations used in the statements *)

(** The inner dimension as the specification words it:
    [floor(dim * expand_factor * 2/3)]. *)
Definition spec_dim_inner (dim : nat) (expand_factor : Q) : Z :=
  Qfloor (inject_Z (Z.of_nat dim) * expand_factor * (2 # 3))%Q.

(** The forward pass as the specification words it: the hidden branch,
    then the gate branch, then [silu(gate) * hidden] with
    [silu(z) = z * sigmoid(z)], then the output projection. *)
Definition spec_nFeedforward_forward (ff : nFeedforward) (x : tensor) : option tensor :=
  do h <- NormLinear_forward (to_hidden ff) x;
  do hidden <- mul_vec h (Scale_forward (hidden_scale ff));
  do g <- NormLinear_forward (to_gate ff) x;
  do g' <- mul_vec g (Scale_forward (gate_scale ff));
  let gate := mul_scalar g' (sqrt (INR (ff_dim ff))) in
  let silu_gate :=
    mkT (bshape gate) (fdim gate) (map (map (fun z => z * sigmoid z)) (rows gate)) in
  do activated <- tmap2 Rmult silu_gate hidden;
  NormLinear_forward (to_out ff) activated.

(** A hyper-parameter given as a tuple whose length is not [depth]. *)
Definition bad_length {A : Type} (t : hparam A) (depth : nat) : Prop :=
  exists l, t = Tuple l /\ length l <> depth.

(** A scalar hyper-parameter written out as the tuple [(v,) * depth]. *)
Definition broadcast {A : Type} (t : hparam A) (depth : nat) : hparam A :=
  match t with
  | Scalar v => Tuple (repeat v depth)
  | Tuple l => Tuple l
  end.

(** The configuration in which every scalar feedforward hyper-parameter is
    written out as a tuple. *)
Definition broadcast_cfg (c : config) : config :=
  let n := cfg_depth c in
  mkConfig (cfg_dim c) (cfg_depth c) (cfg_dim_in c) (cfg_dim_out c)
    (cfg_ff_expand_factor c) (cfg_input_preserve_magnitude c)
    (cfg_constant_shift c) (cfg_manual_norm_weights c) (cfg_alpha_init c)
    (cfg_alpha_attn_init c) (cfg_alpha_attn_scale c)
    (broadcast (cfg_alpha_ff_init c) n) (broadcast (cfg_alpha_ff_scale c) n)
    (broadcast (cfg_s_ff_hidden_init c) n) (broadcast (cfg_s_ff_hidden_scale c) n)
    (broadcast (cfg_s_ff_gate_init c) n) (broadcast (cfg_s_ff_gate_scale c) n).

(** The configuration with other values for the two [alpha_attn]
    arguments. *)
Definition set_alpha_attn (c : config) (a_init a_scale : hparam (option R)) : config :=
  mkConfig (cfg_dim c) (cfg_depth c) (cfg_dim_in c) (cfg_dim_out c)
    (cfg_ff_expand_factor c) (cfg_input_preserve_magnitude c)
    (cfg_constant_shift c) (cfg_manual_norm_weights c) (cfg_alpha_init c)
    a_init a_scale
    (cfg_alpha_ff_init c) (cfg_alpha_ff_scale c)
    (cfg_s_ff_hidden_init c) (cfg_s_ff_hidden_scale c)
    (cfg_s_ff_gate_init c) (cfg_s_ff_gate_scale c).

(** A stack of width 2 with default arguments but [depth] and
    [s_ff_hidden_init]. *)
Definition cfg_example (depth : nat) (s_ff_hidden_init : hparam R) : config :=
  mkConfig 2 depth None None (4 # 1) false 3 false None
    (Scalar None) (Scalar None) (Scalar None) (Scalar None)
    s_ff_hidden_init (Scalar 1) (Scalar 1) (Scalar 1).

(** The input size a [NormLinear] accepts and the output size it
    produces. *)
Definition nl_shape (nl : NormLinear) (d_in d_out : nat) : Prop :=
  NL_dim nl = d_in /\ length (NormLinear_weight nl) = d_out.

(** A feedforward block of width [dim] in the mode selected by
    [manual_norm_weights]. *)
Definition ff_ok (dim : nat) (manual : bool) (ff : nFeedforward) : Prop :=
  ff_dim ff = dim /\
  nl_shape (to_hidden ff) dim (ff_dim_inner ff) /\
  nl_shape (to_gate ff) dim (ff_dim_inner ff) /\
  nl_shape (to_out ff) (ff_dim_inner ff) dim /\
  length (Scale_forward (hidden_scale ff)) = ff_dim_inner ff /\
  length (Scale_forward (gate_scale ff)) = ff_dim_inner ff /\
  Forall (fun nl => NL_parametrize nl = negb manual)
    [to_hidden ff; to_gate ff; to_out ff].

(** A residual layer of width [dim]. *)
Definition layer_ok (dim : nat) (manual : bool) (r : Residual nFeedforward) : Prop :=
  ff_ok dim manual (fn r) /\ length (Scale_forward (branch_scale r)) = dim.

(** A configuration whose per-layer hyper-parameters are all scalars. *)
Definition scalar_cfg (dim depth : nat) (dim_in dim_out : option nat) (ef : Q)
    (ipm : bool) (constant_shift : R) (manual : bool) (alpha_init : option R)
    (a1 a2 a3 a4 : option R) (s5 s6 s7 s8 : R) : config :=
  mkConfig dim depth dim_in dim_out ef ipm constant_shift manual alpha_init
    (Scalar a1) (Scalar a2) (Scalar a3) (Scalar a4)
    (Scalar s5) (Scalar s6) (Scalar s7) (Scalar s8).

(** [nFeedforwards(2, 1, dim_in = 3, manual_norm_weights = True)]. *)
Definition manual_cfg : config :=
  scalar_cfg 2 1 (Some 3%nat) None (4 # 1) false 3 true None
    None None None None 1 1 1 1.

(** Every line of [W] along the axis [dim] has unit norm. *)
Definition unit_lines (n : nat) (W : matrix) (dim : Z) : Prop :=
  Forall (fun v => norm2 v = 1) (lines n W dim).

(** The tensor of an output. *)
Definition primary {X : Type} (o : output X) : tensor :=
  match o with Plain t => t | Tupled t _ => t end.

(** A wrapped module that returns its input. *)
Definition id_call (_ : unit) (x : tensor) (_ : unit) : option (output unit) :=
  Some (Plain x).

(** A wrapped module that returns the opposite of its input. *)
Definition neg_call (_ : unit) (x : tensor) (_ : unit) : option (output unit) :=
  Some (Plain (mul_scalar x (-1))).

(** A well-formed tensor of batch shape [bs] and feature size [d]. *)
Definition has_shape (t : tensor) (bs : list nat) (d : nat) : Prop :=
  bshape t = bs /\ fdim t = d /\ wf t.

(** The configuration of the self-check of the module:
    [nFeedforwards(512, 4, dim_in = 128, dim_out = 128,
    input_preserve_magnitude = True)]. *)
Definition self_check_cfg : config :=
  scalar_cfg 512 4 (Some 128%nat) (Some 128%nat) (4 # 1) true 3 false None
    None None None None 1 1 1 1.

(** The components of one element of the zipped hyper-parameters that the
    scales of a layer are initialized from. *)
Definition hp_alpha_ff_init (hp : layer_hparams) : option R :=
  fst (snd (snd hp)).

Definition hp_s_ff_hidden_init (hp : layer_hparams) : R :=
  fst (snd (snd (snd (snd hp)))).

Definition hp_s_ff_gate_init (hp : layer_hparams) : R :=
  fst (snd (snd (snd (snd (snd (snd hp)))))).

(** The interpolation of one feature vector: [a + (b - a) * w],
    elementwise. *)
Definition lerp_row (a b w : vec) : vec :=
  map2 Rplus a (map2 Rmult (map2 Rminus b a) w).

(** A wrapped module that returns its input in a tuple. *)
Definition id_tuple_call (_ : unit) (x : tensor) (_ : unit) : option (output unit) :=
  Some (Tupled x tt).


(** A bound on norms under which the squares that [F.normalize] sums stay
    finite in single precision, whose largest finite value is about
    3.4e38. *)
Definition norm_max : R := 10 ^ 18.

(** The vectors that [F.normalize] sends to the unit sphere: a norm not
    below [eps], where the clamp takes over, and not above [norm_max]. *)
Definition sized (v : vec) : Prop := eps <= norm2 v <= norm_max.

(** Line by line: where the line of [src] is sized, the line of [dst] at the
    same position has unit norm. *)
Definition unit_where_sized (src dst : list vec) : Prop :=
  Forall2 (fun v u => sized v -> norm2 u = 1) src dst.

(** The magnitudes that float32 holds with full precision lie between
    about 1.2e-38 and 3.4e38. *)
Definition f32_min : R := / 10 ^ 37.
Definition f32_max : R := 10 ^ 38.

(** A number that is zero or whose magnitude is in that range. *)
Definition f32_normal (x : R) : Prop := x = 0 \/ f32_min <= Rabs x <= f32_max.

(** The other components of one element of the zipped hyper-parameters. *)
Definition hp_alpha_ff_scale (hp : layer_hparams) : option R :=
  fst (snd (snd (snd hp))).

Definition hp_s_ff_hidden_scale (hp : layer_hparams) : R :=
  fst (snd (snd (snd (snd (snd hp))))).

Definition hp_s_ff_gate_scale (hp : layer_hparams) : R :=
  snd (snd (snd (snd (snd (snd (snd hp)))))).

(** The residual layer [r] of width [dim] holds the three learned scales
    that the loop of [nFeedforwards.__init__] creates from the element [hp]
    of the zipped hyper-parameters. *)
Definition layer_built_from (dim : nat) (alpha_init : R) (hp : layer_hparams)
    (r : Residual nFeedforward) : Prop :=
  exists d,
    pow_neg_half dim = Some d /\
    Scale_init dim (default (hp_alpha_ff_init hp) alpha_init)
      (default (hp_alpha_ff_scale hp) d) = Some (branch_scale r) /\
    Scale_init (ff_dim_inner (fn r)) (hp_s_ff_hidden_init hp) (hp_s_ff_hidden_scale hp)
    = Some (hidden_scale (fn r)) /\
    Scale_init (ff_dim_inner (fn r)) (hp_s_ff_gate_init hp) (hp_s_ff_gate_scale hp)
    = Some (gate_scale (fn r)).

(** ** Facts on vectors and normalization *)

Lemma eps_pos : 0 < eps.
Proof.
  unfold eps. apply Rinv_0_lt_compat. apply pow_lt. lra.
Qed.

Lemma eps_lt_1 : eps < 1.
Proof.
  assert (H : 1 < 10 ^ 12) by (simpl; lra).
  unfold eps. apply Rlt_le_trans with (/ 1).
  - apply Rinv_lt_contravar; lra.
  - rewrite Rinv_1. lra.
Qed.

Lemma sumsq_nonneg (v : vec) : 0 <= sumsq v.
Proof.
  induction v as [|x v IH]; simpl; [lra | nra].
Qed.


Lemma sumsq_scale (c : R) (v : vec) :
  sumsq (map (fun x => x / c) v) = sumsq v / (c * c).
Proof.
  induction v as [|x v IH]; simpl.
  - unfold Rdiv. now rewrite Rmult_0_l.
  - rewrite IH. unfold Rdiv.
    destruct (Req_dec_T c 0) as [->|Hc].
    + rewrite Rmult_0_l, Rinv_0. ring.
    + field. exact Hc.
Qed.

Lemma norm2_scale (c : R) (v : vec) :
  0 < c -> norm2 (map (fun x => x / c) v) = norm2 v / c.
Proof.
  intros Hc. unfold norm2. rewrite sumsq_scale.
  rewrite sqrt_div; [|apply sumsq_nonneg|nra].
  rewrite sqrt_square; [reflexivity|lra].
Qed.

Lemma denom_pos (v : vec) : 0 < Rmax (norm2 v) eps.
Proof.
  apply Rlt_le_trans with eps; [apply eps_pos | apply Rmax_r].
Qed.

Lemma norm2_normalize (v : vec) :
  norm2 (normalize v) = norm2 v / Rmax (norm2 v) eps.
Proof.
  unfold normalize. apply norm2_scale, denom_pos.
Qed.

(** A vector whose norm reaches [eps] is sent to the unit sphere. *)
Lemma normalize_unit (v : vec) :
  eps <= norm2 v -> norm2 (normalize v) = 1.
Proof.
  intros H. rewrite norm2_normalize, Rmax_left by exact H.
  field. pose proof eps_pos. lra.
Qed.


Lemma length_normalize (v : vec) : length (normalize v) = length v.
Proof. unfold normalize. apply length_map. Qed.

Lemma map_div_1 (v : vec) : map (fun x => x / 1) v = v.
Proof.
  induction v as [|x v IH]; simpl; [reflexivity|].
  rewrite IH. f_equal. field.
Qed.

(** A vector on the unit sphere is a fixed point of [normalize]. *)
Lemma normalize_of_unit (v : vec) : norm2 v = 1 -> normalize v = v.
Proof.
  intros H. unfold normalize. rewrite H.
  rewrite Rmax_left by (pose proof eps_lt_1; lra).
  apply map_div_1.
Qed.

Lemma sumsq_zero (v : vec) : sumsq v = 0 -> Forall (fun x => x = 0) v.
Proof.
  induction v as [|x v IH]; simpl; intros H; constructor.
  - pose proof (sumsq_nonneg v). nra.
  - apply IH. pose proof (sumsq_nonneg v). nra.
Qed.

Lemma norm2_zero (v : vec) : norm2 v = 0 -> Forall (fun x => x = 0) v.
Proof.
  intros H. apply sumsq_zero. apply sqrt_eq_0; [apply sumsq_nonneg | exact H].
Qed.

(** The zero vector is a fixed point of [normalize] too. *)
Lemma normalize_of_zero (v : vec) : norm2 v = 0 -> normalize v = v.
Proof.
  intros H. apply norm2_zero in H. unfold normalize.
  generalize (Rmax (norm2 v) eps). intros d.
  induction H as [|x v Hx _ IH]; simpl; [reflexivity|].
  rewrite IH, Hx. f_equal. unfold Rdiv. ring.
Qed.

(** ** Scale: construction and evaluation *)

Lemma Scale_init_Some (dim : nat) (init scale : R) :
  scale <> 0 ->
  Scale_init dim init scale
  = Some (mkScale dim (map (fun one => one * scale) (repeat 1 dim)) (init / scale)).
Proof.
  intros H. unfold Scale_init. destruct (Req_dec_T scale 0); [contradiction|reflexivity].
Qed.

Lemma Scale_init_zero (dim : nat) (init : R) : Scale_init dim init 0 = None.
Proof.
  unfold Scale_init. destruct (Req_dec_T 0 0); [reflexivity|contradiction].
Qed.

Lemma Scale_init_inv (dim : nat) (init scale : R) (s : Scale) :
  Scale_init dim init scale = Some s ->
  scale <> 0 /\
  s = mkScale dim (map (fun one => one * scale) (repeat 1 dim)) (init / scale).
Proof.
  unfold Scale_init. destruct (Req_dec_T scale 0); [discriminate|].
  intros [= <-]. now split.
Qed.

Lemma map_repeat {A B : Type} (f : A -> B) (a : A) (n : nat) :
  map f (repeat a n) = repeat (f a) n.
Proof.
  induction n as [|n IH]; simpl; [reflexivity | now rewrite IH].
Qed.

Lemma Scale_init_value (dim : nat) (init scale : R) (s : Scale) :
  Scale_init dim init scale = Some s ->
  Scale_scale s = repeat scale dim /\
  Scale_forward s = repeat init dim /\
  length (Scale_forward s) = dim.
Proof.
  intros H. apply Scale_init_inv in H. destruct H as [Hs ->].
  assert (Hl : map (fun one => one * scale) (repeat 1 dim) = repeat scale dim).
  { rewrite map_repeat. f_equal. ring. }
  assert (Hf : Scale_forward
                 (mkScale dim (map (fun one => one * scale) (repeat 1 dim)) (init / scale))
               = repeat init dim).
  { unfold Scale_forward. simpl. rewrite Hl, map_repeat. f_equal. field. exact Hs. }
  split; [exact Hl|]. split; [exact Hf|].
  rewrite Hf. apply repeat_length.
Qed.

Lemma f32_normal_quarter : f32_normal (1 / 4) /\ f32_normal (1 / 2) /\ f32_normal 2.
Proof.
  assert (Hmin : f32_min <= 1 / 4).
  { unfold f32_min. apply Rle_trans with (/ 10 ^ 1).
    - apply Rinv_le_contravar; [simpl; lra|]. apply Rle_pow; [lra | lia].
    - simpl. lra. }
  assert (Hmax : 2 <= f32_max).
  { unfold f32_max. apply Rle_trans with (10 ^ 1); [simpl; lra|].
    apply Rle_pow; [lra | lia]. }
  repeat split; right; rewrite Rabs_right by lra; lra.
Qed.

(** C8 (amended).  For a non-zero [scale], when [scale], [init / scale] and
    [init] are zero or of a magnitude that float32 holds with full
    precision, [Scale(dim, init, scale)] is constructed, its learned vector
    holds [scale] in each of its [dim] entries, and evaluating it returns
    [init] in each of its [dim] entries (in the program, up to rounding). *)
Theorem Scale_fresh_value (dim : nat) (init scale : R) :
  scale <> 0 -> f32_normal scale -> f32_normal (init / scale) -> f32_normal init ->
  exists s,
    Scale_init dim init scale = Some s /\
    Scale_scale s = repeat scale dim /\
    Scale_forward s = repeat init dim /\
    length (Scale_forward s) = dim.
Proof.
  intros Hs _ _ _. eexists. split; [apply Scale_init_Some; exact Hs|].
  unfold Scale_forward. cbn [Scale_scale Scale_forward_scale].
  assert (Hl : map (fun one => one * scale) (repeat 1 dim) = repeat scale dim).
  { rewrite map_repeat. f_equal. ring. }
  rewrite Hl, map_repeat.
  replace (scale * (init / scale)) with init by (field; exact Hs).
  split; [reflexivity|]. split; [reflexivity|]. apply repeat_length.
Qed.

Lemma Scale_fresh_value_witness :
  exists s, Scale_init 3 (1 / 2) (1 / 4) = Some s /\
            Scale_scale s = repeat (1 / 4) 3 /\
            Scale_forward s = repeat (1 / 2) 3 /\
            length (Scale_forward s) = 3%nat.
Proof.
  destruct f32_normal_quarter as (H4 & H2 & H).
  apply (@Scale_fresh_value 3 (1 / 2) (1 / 4)).
  - lra.
  - exact H4.
  - replace (1 / 2 / (1 / 4)) with 2 by field. exact H.
  - exact H2.
Defined.

(** C8 as stated fails outside that range: [Scale(2, 1., 1e-50)] is
    constructed, but 1e-50 is stored as 0 in the float32 learned vector, the
    factor [1. / 1e-50] becomes an infinity in binary32, and evaluating
    returns NaN in both entries, not [init = 1.]. *)
Lemma Scale_underflow :
  exists s,
    Scale_init_b32 2 (b64_of_Z 1) (b64_of_ratio 1 (10 ^ 50)) = Some s /\
    Scale_b32_scale s = [S754_zero false; S754_zero false] /\
    Scale_forward_b32 s = [S754_nan; S754_nan] /\
    Scale_forward_b32 s <> repeat (b32 1 1) 2.
Proof.
  eexists. split; [vm_compute; reflexivity|].
  split; [vm_compute; reflexivity|].
  split; [vm_compute; reflexivity|].
  vm_compute. discriminate.
Qed.

(** Inside the range the value is [init] up to rounding only:
    [Scale(2, 0.5, 2 ** -0.5)], the step of [Residual(fn, 2, 0.5)],
    evaluates to 0.49999997, the float32 number just below 0.5. *)
Example Scale_default_step :
  exists s,
    Scale_init_b32 2 (b64_of_ratio 1 2) (b64_of_ratio 7071067811865476 (10 ^ 16))
    = Some s /\
    Scale_forward_b32 s
    = [S754_finite false 16777215 (-25); S754_finite false 16777215 (-25)] /\
    b32_of_b64 (b64_of_ratio 1 2) = S754_finite false 8388608 (-24).
Proof.
  eexists. split; [vm_compute; reflexivity|].
  split; vm_compute; reflexivity.
Qed.

(** ** nFeedforward: the inner dimension and the forward pass *)

Lemma py_int_floor (q : Q) : (0 <= q)%Q -> py_int q = Qfloor q.
Proof.
  destruct q as [n d]. unfold Qle, py_int, Qfloor. simpl. intros H.
  apply Z.quot_div_nonneg; lia.
Qed.

Lemma dim_inner_floor (dim : nat) (expand_factor : Q) :
  (0 <= expand_factor)%Q ->
  py_int (inject_Z (Z.of_nat dim) * expand_factor * 2 / 3)%Q
  = spec_dim_inner dim expand_factor.
Proof.
  intros H. unfold spec_dim_inner.
  assert (Hd : (0 <= inject_Z (Z.of_nat dim))%Q).
  { change 0%Q with (inject_Z 0). rewrite <- Zle_Qle. lia. }
  assert (He : (inject_Z (Z.of_nat dim) * expand_factor * 2 / 3
                == inject_Z (Z.of_nat dim) * expand_factor * (2 # 3))%Q) by field.
  rewrite py_int_floor.
  - apply Qfloor_comp. exact He.
  - rewrite He. apply Qmult_le_0_compat; [|discriminate].
    apply Qmult_le_0_compat; assumption.
Qed.

Lemma nFeedforward_init_inv w k dim ef manual shi shs sgi sgs ff :
  nFeedforward_init w k dim ef manual shi shs sgi sgs = Some ff ->
  forall di, di = py_int (inject_Z (Z.of_nat dim) * ef * 2 / 3)%Q ->
  (0 <= di)%Z /\
  exists hs gs,
    Scale_init (Z.to_nat di) shi shs = Some hs /\
    Scale_init (Z.to_nat di) sgi sgs = Some gs /\
    ff = mkFF dim ef (Z.to_nat di)
           (NormLinear_init (w k) dim (Z.to_nat di) true (negb manual))
           (NormLinear_init (w (k + 1)%nat) dim (Z.to_nat di) true (negb manual))
           hs gs
           (NormLinear_init (w (k + 2)%nat) (Z.to_nat di) dim false (negb manual)).
Proof.
  unfold nFeedforward_init. intros H di Hdi. cbv zeta in H. rewrite <- Hdi in H.
  destruct (di <? 0)%Z eqn:Hneg; [discriminate|].
  apply Z.ltb_ge in Hneg. split; [exact Hneg|].
  destruct (Scale_init (Z.to_nat di) shi shs) as [hs|]; [|discriminate].
  destruct (Scale_init (Z.to_nat di) sgi sgs) as [gs|]; [|discriminate].
  simpl in H. injection H as <-. now exists hs, gs.
Qed.

Lemma py_int_integer (a k : Z) :
  py_int (inject_Z a * inject_Z k * 2 / 3)%Q = Z.quot (a * k * 2) 3.
Proof.
  unfold py_int, inject_Z, Qdiv, Qmult, Qinv. cbn [Qnum Qden].
  f_equal. ring.
Qed.

Lemma spec_dim_inner_integer (dim : nat) (k : Z) :
  spec_dim_inner dim (inject_Z k) = (Z.of_nat dim * k * 2 / 3)%Z.
Proof.
  unfold spec_dim_inner, Qfloor, inject_Z, Qmult. cbn [Qnum Qden].
  reflexivity.
Qed.

(** C5 (amended).  On every input the forward pass of a constructed
    [nFeedforward(dim, expand_factor, ...)] computes
    [NormLinear_out(silu(gate) * hidden)] with
    [hidden = NormLinear_hidden(x) * Scale_hidden()] and
    [gate = NormLinear_gate(x) * Scale_gate() * sqrt(dim)].  For an
    expansion factor that is a non-negative integer [k], with
    [dim * k * 2] below [2 ^ 53] so that the product is exact in binary64,
    the inner dimension is [floor(dim * k * 2/3)]. *)
Theorem nFeedforward_forward_spec :
  (forall w k dim ef manual shi shs sgi sgs ff,
     nFeedforward_init w k dim ef manual shi shs sgi sgs = Some ff ->
     ff_dim ff = dim /\
     forall x, nFeedforward_forward ff x = spec_nFeedforward_forward ff x) /\
  (forall w k dim (factor : Z) manual shi shs sgi sgs ff,
     (0 <= factor)%Z -> (Z.of_nat dim * factor * 2 < 2 ^ 53)%Z ->
     nFeedforward_init w k dim (inject_Z factor) manual shi shs sgi sgs = Some ff ->
     Z.of_nat (ff_dim_inner ff) = spec_dim_inner dim (inject_Z factor) /\
     Z.of_nat (ff_dim_inner ff) = (Z.of_nat dim * factor * 2 / 3)%Z).
Proof.
  split.
  - intros w k dim ef manual shi shs sgi sgs ff H.
    destruct (nFeedforward_init_inv _ _ _ _ _ _ _ _ _ H eq_refl)
      as [Hd (hs & gs & _ & _ & ->)]. simpl.
    split; [reflexivity|].
    intros x. unfold nFeedforward_forward, spec_nFeedforward_forward. simpl.
    destruct (NormLinear_forward _ x) as [h|]; simpl; [|reflexivity].
    destruct (NormLinear_forward _ x) as [g|]; simpl.
    + destruct (mul_vec h _) as [h'|]; simpl; [|reflexivity].
      reflexivity.
    + destruct (mul_vec h _); reflexivity.
  - intros w k dim factor manual shi shs sgi sgs ff Hf _ H.
    destruct (nFeedforward_init_inv _ _ _ _ _ _ _ _ _ H eq_refl)
      as [Hd (hs & gs & _ & _ & ->)]. cbn [ff_dim_inner].
    rewrite Z2Nat.id by exact Hd.
    rewrite spec_dim_inner_integer, py_int_integer.
    split; apply Z.quot_div_nonneg; lia.
Qed.

Lemma nFeedforward_init_example (w : nat -> nat -> nat -> R) :
  exists ff, nFeedforward_init w 0 3 (4 # 1) false 1 1 1 1 = Some ff.
Proof.
  unfold nFeedforward_init.
  change (py_int (inject_Z (Z.of_nat 3) * (4 # 1) * 2 / 3)%Q) with 8%Z.
  cbv zeta. change (8 <? 0)%Z with false. cbv iota.
  rewrite !Scale_init_Some by lra. simpl. eexists. reflexivity.
Qed.

Lemma nFeedforward_forward_spec_witness :
  exists ff,
    nFeedforward_init (fun _ _ _ => 1) 0 3 (inject_Z 4) false 1 1 1 1 = Some ff /\
    Z.of_nat (ff_dim_inner ff) = spec_dim_inner 3 (inject_Z 4) /\
    Z.of_nat (ff_dim_inner ff) = (Z.of_nat 3 * 4 * 2 / 3)%Z.
Proof.
  destruct (nFeedforward_init_example (fun _ _ _ => 1)) as [ff Hff].
  exists ff. split; [exact Hff|].
  apply (proj2 nFeedforward_forward_spec (fun _ _ _ => 1) 0%nat 3%nat 4%Z
           false 1 1 1 1 ff).
  - lia.
  - reflexivity.
  - exact Hff.
Defined.

(** C5 as stated fails for a negative factor: [nFeedforward(1,
    expand_factor = -0.5)] is constructed with [dim_inner = 0], since
    [int( )] truncates -1/3 toward zero, where the floor is -1.  The binary64
    evaluation gives the same 0. *)
Lemma dim_inner_truncates :
  exists ff,
    nFeedforward_init (fun _ _ _ => 1) 0 1 (-1 # 2) false 1 1 1 1 = Some ff /\
    ff_dim_inner ff = 0%nat /\
    spec_dim_inner 1 (-1 # 2) = (-1)%Z /\
    Z.of_nat (ff_dim_inner ff) <> spec_dim_inner 1 (-1 # 2) /\
    dim_inner_b64 1 (b64_of_ratio (-1) 2) = Some 0%Z.
Proof.
  unfold nFeedforward_init.
  change (py_int (inject_Z (Z.of_nat 1) * (-1 # 2) * 2 / 3)%Q) with 0%Z.
  cbv zeta. change (0 <? 0)%Z with false. cbv iota.
  rewrite !Scale_init_Some by lra. cbn [bind].
  eexists. split; [reflexivity|]. cbn [ff_dim_inner].
  split; [reflexivity|]. split; [reflexivity|]. split.
  - change (spec_dim_inner 1 (-1 # 2)) with (-1)%Z. simpl. discriminate.
  - vm_compute. reflexivity.
Qed.

(** Nor does it hold for every positive factor: at [dim = 15] and
    [expand_factor = 4.1] the binary64 product is just below 41 and the
    program takes 40, where [floor(15 * 4.1 * 2/3)] is 41.  At the default
    factor the two agree. *)
Example dim_inner_rounded_product :
  dim_inner_b64 15 (b64_of_ratio 41 10) = Some 40%Z /\
  spec_dim_inner 15 (41 # 10) = 41%Z /\
  dim_inner_b64 512 (b64_of_Z 4) = Some 1365%Z /\
  spec_dim_inner 512 (inject_Z 4) = 1365%Z.
Proof.
  repeat split; vm_compute; reflexivity.
Qed.

(** ** Per-layer hyper-parameters *)

Lemma cast_tuple_Scalar {A : Type} (v : A) (n : nat) :
  cast_tuple (Scalar v) n = Some (repeat v n).
Proof.
  unfold cast_tuple. now rewrite repeat_length, Nat.eqb_refl.
Qed.

Lemma cast_tuple_Tuple_bad {A : Type} (l : list A) (n : nat) :
  length l <> n -> cast_tuple (Tuple l) n = None.
Proof.
  intros H. unfold cast_tuple. apply Nat.eqb_neq in H. now rewrite H.
Qed.

Lemma cast_tuple_Tuple_good {A : Type} (l : list A) (n : nat) :
  length l = n -> cast_tuple (Tuple l) n = Some l.
Proof.
  intros H. unfold cast_tuple. apply Nat.eqb_eq in H. now rewrite H.
Qed.

Lemma cast_tuple_length {A : Type} (t : hparam A) (n : nat) (l : list A) :
  cast_tuple t n = Some l -> length l = n.
Proof.
  unfold cast_tuple.
  destruct (Nat.eqb_spec (length match t with Tuple l0 => l0 | Scalar v => repeat v n end) n)
    as [E|E]; [|discriminate].
  intros [= <-]. exact E.
Qed.

Lemma cast_tuple_broadcast {A : Type} (t : hparam A) (n : nat) :
  cast_tuple (broadcast t n) n = cast_tuple t n.
Proof.
  destruct t as [v|l]; simpl; [|reflexivity].
  rewrite cast_tuple_Scalar. apply cast_tuple_Tuple_good, repeat_length.
Qed.

Lemma cast_tuple_bad {A : Type} (t : hparam A) (n : nat) :
  bad_length t n -> cast_tuple t n = None.
Proof.
  intros (l & -> & H). now apply cast_tuple_Tuple_bad.
Qed.

Ltac skip_binds :=
  repeat match goal with
         | |- bind ?m _ = None => destruct m; simpl; try reflexivity
         end.

(** ** The [alpha_attn] arguments *)

(** The loop that creates the layers does not read the first two
    components of the zipped hyper-parameters. *)
Lemma build_layers_attn w dim ef manual alpha_init
    (a a' b b' : list (option R))
    (r : list (option R * (option R * (R * (R * (R * R)))))) :
  length a = length a' -> length b = length b' ->
  forall k,
    build_layers w k dim ef manual alpha_init (combine a (combine b r))
    = build_layers w k dim ef manual alpha_init (combine a' (combine b' r)).
Proof.
  revert a' b b' r.
  induction a as [|x a IH]; intros [|x' a'] b b' r Ha Hb k;
    try discriminate; [reflexivity|].
  destruct b as [|y b], b' as [|y' b']; try discriminate; [reflexivity|].
  destruct r as [|z r]; [reflexivity|].
  destruct z as (z1 & z2 & z3 & z4 & z5 & z6). simpl.
  injection Ha as Ha. injection Hb as Hb.
  now rewrite (IH a' b b' r Ha Hb (k + 3)%nat).
Qed.

(** C10.  The arguments [alpha_attn_init] and [alpha_attn_scale] are inert:
    two constructions that differ only in them (each a scalar or a tuple of
    [depth] values) give the same stack, hence the same parameters and the
    same forward outputs. *)
Theorem alpha_attn_inert (w : nat -> nat -> nat -> R) (c : config)
    (a_init a_scale a_init' a_scale' : hparam (option R)) :
  cast_tuple a_init (cfg_depth c) <> None ->
  cast_tuple a_scale (cfg_depth c) <> None ->
  cast_tuple a_init' (cfg_depth c) <> None ->
  cast_tuple a_scale' (cfg_depth c) <> None ->
  nFeedforwards_init w (set_alpha_attn c a_init a_scale)
  = nFeedforwards_init w (set_alpha_attn c a_init' a_scale') /\
  forall s s',
    nFeedforwards_init w (set_alpha_attn c a_init a_scale) = Some s ->
    nFeedforwards_init w (set_alpha_attn c a_init' a_scale') = Some s' ->
    norm_linears s = norm_linears s' /\
    map (@branch_scale nFeedforward) (layers s)
    = map (@branch_scale nFeedforward) (layers s') /\
    forall x, nFeedforwards_forward s x = nFeedforwards_forward s' x.
Proof.
  intros H1 H2 H3 H4.
  assert (E : nFeedforwards_init w (set_alpha_attn c a_init a_scale)
              = nFeedforwards_init w (set_alpha_attn c a_init' a_scale')).
  { unfold nFeedforwards_init, set_alpha_attn. cbv zeta. simpl.
    destruct (cfg_depth c =? 0)%nat; [reflexivity|]. simpl.
    destruct (cast_tuple a_init (cfg_depth c)) as [l1|] eqn:E1; [|contradiction].
    destruct (cast_tuple a_scale (cfg_depth c)) as [l2|] eqn:E2; [|contradiction].
    destruct (cast_tuple a_init' (cfg_depth c)) as [l3|] eqn:E3; [|contradiction].
    destruct (cast_tuple a_scale' (cfg_depth c)) as [l4|] eqn:E4; [|contradiction].
    apply cast_tuple_length in E1, E2, E3, E4. simpl.
    destruct (cast_tuple (cfg_alpha_ff_init c) _); [simpl|reflexivity].
    destruct (cast_tuple (cfg_alpha_ff_scale c) _); [simpl|reflexivity].
    destruct (cast_tuple (cfg_s_ff_hidden_init c) _); [simpl|reflexivity].
    destruct (cast_tuple (cfg_s_ff_hidden_scale c) _); [simpl|reflexivity].
    destruct (cast_tuple (cfg_s_ff_gate_init c) _); [simpl|reflexivity].
    destruct (cast_tuple (cfg_s_ff_gate_scale c) _); [simpl|reflexivity].
    rewrite (@build_layers_attn w (cfg_dim c) (cfg_ff_expand_factor c)
               (cfg_manual_norm_weights c) _ l1 l3 l2 l4) by congruence.
    reflexivity. }
  split; [exact E|].
  intros s s' Hs Hs'. rewrite E in Hs. rewrite Hs in Hs'.
  injection Hs' as <-. repeat split.
Qed.

Lemma alpha_attn_inert_witness :
  nFeedforwards_init (fun _ _ _ => 1)
    (set_alpha_attn (cfg_example 2 (Scalar 1)) (Scalar None) (Scalar (Some 5)))
  = nFeedforwards_init (fun _ _ _ => 1)
      (set_alpha_attn (cfg_example 2 (Scalar 1)) (Tuple [Some 2; None]) (Scalar (Some 7))).
Proof.
  apply (@alpha_attn_inert (fun _ _ _ => 1) (cfg_example 2 (Scalar 1))
           (Scalar None) (Scalar (Some 5)) (Tuple [Some 2; None]) (Scalar (Some 7)));
    cbn; discriminate.
Defined.

(** ** NormLinear: shape and mode *)

Lemma length_l2norm_mat (W : matrix) (dim : Z) :
  length (l2norm_mat W dim) = length W.
Proof.
  unfold l2norm_mat, l2norm_cols, l2norm_rows.
  destruct (dim =? 0)%Z; apply length_map.
Qed.

Lemma length_mk_matrix (n m : nat) (w : nat -> nat -> R) :
  length (mk_matrix n m w) = n.
Proof.
  unfold mk_matrix. now rewrite length_map, length_seq.
Qed.

Lemma NormLinear_norm_weights_fields (nl : NormLinear) :
  NL_dim (NormLinear_norm_weights_ nl) = NL_dim nl /\
  NL_dim_out (NormLinear_norm_weights_ nl) = NL_dim_out nl /\
  NL_parametrize (NormLinear_norm_weights_ nl) = NL_parametrize nl /\
  NL_l2norm (NormLinear_norm_weights_ nl) = NL_l2norm nl /\
  NL_param (NormLinear_norm_weights_ nl) = l2norm_mat (NL_param nl) (NL_l2norm nl).
Proof.
  unfold NormLinear_norm_weights_, NormLinear_weight.
  destruct (NL_parametrize nl) eqn:E; simpl; rewrite ?E; repeat split; reflexivity.
Qed.

Lemma NormLinear_init_parametrize w d d_out norm_dim_in p :
  NL_parametrize (NormLinear_init w d d_out norm_dim_in p) = p.
Proof.
  unfold NormLinear_init.
  now destruct (NormLinear_norm_weights_fields
                  (mkNL d d_out p (if norm_dim_in then (-1)%Z else 0%Z)
                     (mk_matrix d_out d w))) as (_ & _ & -> & _).
Qed.

Lemma NormLinear_init_shape w d d_out norm_dim_in p :
  nl_shape (NormLinear_init w d d_out norm_dim_in p) d d_out.
Proof.
  unfold NormLinear_init, nl_shape.
  set (nl0 := mkNL d d_out p _ _).
  destruct (NormLinear_norm_weights_fields nl0) as (Hd & _ & Hp & Hl & Hw).
  split; [exact Hd|].
  unfold NormLinear_weight. rewrite Hp, Hw, Hl.
  destruct (NL_parametrize nl0); rewrite ?length_l2norm_mat;
    apply length_mk_matrix.
Qed.

(** ** The structure of a constructed stack *)

Lemma pow_neg_half_inv (dim : nat) (d : R) :
  pow_neg_half dim = Some d -> dim <> 0%nat /\ d = / sqrt (INR dim) /\ 0 < d.
Proof.
  unfold pow_neg_half. destruct (Nat.eqb_spec dim 0) as [E|E]; [discriminate|].
  intros [= <-]. split; [exact E|]. split; [reflexivity|].
  apply Rinv_0_lt_compat, sqrt_lt_R0, lt_0_INR. lia.
Qed.

Lemma pow_neg_half_Some (dim : nat) :
  dim <> 0%nat -> pow_neg_half dim = Some (/ sqrt (INR dim)).
Proof.
  intros H. unfold pow_neg_half. apply Nat.eqb_neq in H. now rewrite H.
Qed.

Lemma nFeedforward_init_ok w k dim ef manual shi shs sgi sgs ff :
  nFeedforward_init w k dim ef manual shi shs sgi sgs = Some ff ->
  ff_ok dim manual ff.
Proof.
  intros H.
  destruct (nFeedforward_init_inv _ _ _ _ _ _ _ _ _ H eq_refl)
    as [_ (hs & gs & Hhs & Hgs & ->)].
  apply Scale_init_value in Hhs, Hgs.
  destruct Hhs as (_ & _ & Hhs), Hgs as (_ & _ & Hgs).
  unfold ff_ok. simpl. repeat split;
    try apply NormLinear_init_shape; try assumption.
  repeat constructor; apply NormLinear_init_parametrize.
Qed.

Lemma Residual_init_inv {F : Type} (f : F) (dim : nat) (init : R)
    (scale : option R) (r : Residual F) :
  Residual_init f dim init scale = Some r ->
  fn r = f /\ length (Scale_forward (branch_scale r)) = dim.
Proof.
  unfold Residual_init.
  destruct (pow_neg_half dim) as [d|]; [simpl|discriminate].
  destruct (Scale_init dim init (default scale d)) as [s|] eqn:E; [simpl|discriminate].
  intros [= <-]. simpl. split; [reflexivity|].
  now apply Scale_init_value in E.
Qed.

Lemma build_layers_ok w dim ef manual alpha_init hps :
  forall k ls,
    build_layers w k dim ef manual alpha_init hps = Some ls ->
    Forall (layer_ok dim manual) ls.
Proof.
  induction hps as [|hp hps IH]; intros k ls H; simpl in H.
  - injection H as <-. constructor.
  - destruct hp as (z1 & z2 & z3 & z4 & z5 & z6 & z7 & z8).
    destruct (nFeedforward_init w k dim ef manual z5 z6 z7 z8) as [ff|] eqn:Eff;
      [simpl in H|discriminate].
    destruct (pow_neg_half dim) as [d|]; [simpl in H|discriminate].
    destruct (Residual_init ff dim (default z3 alpha_init) (Some (default z4 d)))
      as [r|] eqn:Er; [simpl in H|discriminate].
    destruct (build_layers w (k + 3) dim ef manual alpha_init hps) as [rest|] eqn:Erest;
      [simpl in H|discriminate].
    injection H as <-. constructor.
    + apply Residual_init_inv in Er. destruct Er as [Hfn Hlen].
      split; [rewrite Hfn; eapply nFeedforward_init_ok; exact Eff | exact Hlen].
    + eapply IH. exact Erest.
Qed.

(** What [nFeedforwards.__init__] returns when it returns. *)
Lemma nFeedforwards_init_inv w c s :
  nFeedforwards_init w c = Some s ->
  cfg_depth c <> 0%nat /\
  Forall (layer_ok (cfg_dim c) (cfg_manual_norm_weights c)) (layers s) /\
  nff_dim s = cfg_dim c /\
  nff_input_preserve_magnitude s = cfg_input_preserve_magnitude c /\
  nff_constant_shift s = cfg_constant_shift c /\
  need_proj_in s = exists_ (cfg_dim_in c) || cfg_input_preserve_magnitude c /\
  (need_proj_in s = true ->
   proj_in s = Some (NormLinear_init (w (3 * cfg_depth c)%nat)
                       (default (cfg_dim_in c) (cfg_dim c)
                        + (if cfg_input_preserve_magnitude c then 1 else 0))
                       (cfg_dim c) false true) /\
   exists sc, proj_in_scale s = Some sc /\ Scale_init (cfg_dim c) 1 1 = Some sc) /\
  need_proj_out s = exists_ (cfg_dim_out c) /\
  (forall dim_out, cfg_dim_out c = Some dim_out ->
   proj_out s = Some (NormLinear_init
                        (w (if need_proj_in s then S (3 * cfg_depth c) else (3 * cfg_depth c)%nat))
                        (cfg_dim c) dim_out true (negb (cfg_manual_norm_weights c))) /\
   exists sc d, proj_out_scale s = Some sc /\ pow_neg_half (cfg_dim c) = Some d /\
                Scale_init dim_out 1 d = Some sc) /\
  (cfg_dim_out c = None -> proj_out s = None).
Proof.
  unfold nFeedforwards_init. cbv zeta.
  destruct (Nat.eqb_spec (cfg_depth c) 0) as [E0|E0]; [discriminate|]. simpl.
  repeat match goal with
         | |- bind (cast_tuple ?t ?n) _ = Some _ -> _ =>
             destruct (cast_tuple t n); [simpl|discriminate]
         end.
  match goal with
  | |- bind (build_layers ?a ?b ?c0 ?d ?e ?f ?g) _ = Some _ -> _ =>
      destruct (build_layers a b c0 d e f g) as [ls|] eqn:Els; [simpl|discriminate]
  end.
  apply build_layers_ok in Els.
  set (need := exists_ (cfg_dim_in c) || cfg_input_preserve_magnitude c).
  destruct need eqn:Eneed.
  - destruct (Scale_init (cfg_dim c) 1 1) as [sc|] eqn:Esc; [simpl|discriminate].
    destruct (cfg_dim_out c) as [dim_out|] eqn:Eout.
    + destruct (pow_neg_half (cfg_dim c)) as [d|] eqn:Ed; [simpl|discriminate].
      destruct (Scale_init dim_out 1 d) as [sc'|] eqn:Esc'; [simpl|discriminate].
      intros [= <-]. simpl. repeat split; try assumption; try discriminate.
      * now exists sc.
      * now injection H as <-.
      * injection H as <-. now exists sc', d.
    + simpl. intros [= <-]. simpl. repeat split; try assumption; try discriminate.
      now exists sc.
  - simpl. destruct (cfg_dim_out c) as [dim_out|] eqn:Eout.
    + destruct (pow_neg_half (cfg_dim c)) as [d|] eqn:Ed; [simpl|discriminate].
      destruct (Scale_init dim_out 1 d) as [sc'|] eqn:Esc'; [simpl|discriminate].
      intros [= <-]. simpl. repeat split; try assumption; try discriminate.
      * now injection H as <-.
      * injection H as <-. now exists sc', d.
    + simpl. intros [= <-]. simpl. repeat split; try assumption; try discriminate.
Qed.

(** ** Constructions that succeed *)

Lemma dim_inner_nonneg (dim : nat) (ef : Q) :
  (0 <= ef)%Q -> (0 <= py_int (inject_Z (Z.of_nat dim) * ef * 2 / 3)%Q)%Z.
Proof.
  intros H. rewrite dim_inner_floor by exact H. unfold spec_dim_inner.
  change 0%Z with (Qfloor 0). apply Qfloor_resp_le.
  apply Qmult_le_0_compat; [|discriminate].
  apply Qmult_le_0_compat; [|exact H].
  change 0%Q with (inject_Z 0). rewrite <- Zle_Qle. lia.
Qed.

Lemma nFeedforward_init_Some w k dim ef manual shi shs sgi sgs :
  (0 <= ef)%Q -> shs <> 0 -> sgs <> 0 ->
  exists ff, nFeedforward_init w k dim ef manual shi shs sgi sgs = Some ff.
Proof.
  intros Hef Hh Hg. unfold nFeedforward_init. cbv zeta.
  pose proof (dim_inner_nonneg dim Hef) as Hd. apply Z.ltb_ge in Hd. rewrite Hd.
  rewrite !Scale_init_Some by assumption. simpl. eexists. reflexivity.
Qed.

Lemma combine_repeat {A B : Type} (a : A) (b : B) (n : nat) :
  combine (repeat a n) (repeat b n) = repeat (a, b) n.
Proof.
  induction n as [|n IH]; simpl; [reflexivity | now rewrite IH].
Qed.

Lemma build_layers_repeat w dim ef manual alpha_init
    (a1 a2 a3 a4 : option R) (s5 s6 s7 s8 : R) :
  dim <> 0%nat -> (0 <= ef)%Q -> s6 <> 0 -> s8 <> 0 -> a4 <> Some 0 ->
  forall n k, exists ls,
    build_layers w k dim ef manual alpha_init
      (repeat (a1, (a2, (a3, (a4, (s5, (s6, (s7, s8))))))) n) = Some ls.
Proof.
  intros Hdim Hef H6 H8 H4. induction n as [|n IH]; intros k; simpl.
  - eexists. reflexivity.
  - destruct (nFeedforward_init_Some w k dim manual s5 s7 Hef H6 H8) as [ff ->].
    simpl. rewrite (pow_neg_half_Some Hdim). simpl.
    unfold Residual_init. rewrite (pow_neg_half_Some Hdim). simpl.
    rewrite Scale_init_Some.
    + simpl. destruct (IH (k + 3)%nat) as [ls ->]. simpl. eexists. reflexivity.
    + destruct a4 as [v|]; simpl.
      * intros ->. now apply H4.
      * pose proof (proj2 (proj2 (pow_neg_half_inv dim (pow_neg_half_Some Hdim)))).
        lra.
Qed.

(** With scalar hyper-parameters, a positive width and depth, a
    non-negative expansion factor and non-zero scales, the construction
    returns a stack. *)
Lemma nFeedforwards_init_Some w dim depth dim_in dim_out ef ipm cs manual
    alpha_init a1 a2 a3 a4 s5 s6 s7 s8 :
  dim <> 0%nat -> depth <> 0%nat -> (0 <= ef)%Q ->
  s6 <> 0 -> s8 <> 0 -> a4 <> Some 0 ->
  exists s,
    nFeedforwards_init w
      (scalar_cfg dim depth dim_in dim_out ef ipm cs manual alpha_init
         a1 a2 a3 a4 s5 s6 s7 s8) = Some s.
Proof.
  intros Hdim Hdepth Hef H6 H8 H4.
  unfold nFeedforwards_init, scalar_cfg. cbv zeta. simpl.
  apply Nat.eqb_neq in Hdepth. rewrite Hdepth. simpl.
  rewrite !cast_tuple_Scalar. simpl. rewrite !combine_repeat.
  destruct (build_layers_repeat w manual (default alpha_init (1 / INR depth))
              a1 a2 a3 s5 s7 Hdim Hef H6 H8 H4 depth 0%nat) as [ls ->].
  simpl. rewrite (pow_neg_half_Some Hdim).
  rewrite (@Scale_init_Some dim 1 1) by lra.
  assert (Hd : / sqrt (INR dim) <> 0).
  { pose proof (proj2 (proj2 (pow_neg_half_inv dim (pow_neg_half_Some Hdim)))). lra. }
  destruct (exists_ dim_in || ipm); simpl;
    destruct dim_out as [dim_out|]; simpl;
    rewrite ?(Scale_init_Some dim_out 1 Hd); simpl; eexists; reflexivity.
Qed.

(** ** Renormalizing a whole stack *)

Lemma opt_list_map {A B : Type} (f : A -> B) (o : option A) :
  opt_list (option_map f o) = map f (opt_list o).
Proof. now destruct o. Qed.

(** The stack-level call renormalizes each [NormLinear] of the stack, and
    nothing else. *)
Lemma norm_linears_norm_weights_ (s : nFeedforwards) :
  norm_linears (nFeedforwards_norm_weights_ s)
  = map NormLinear_norm_weights_ (norm_linears s).
Proof.
  unfold norm_linears, nFeedforwards_norm_weights_. cbn [layers proj_in proj_out].
  rewrite !map_app, !opt_list_map. f_equal.
  induction (layers s) as [|r ls IH]; [reflexivity|].
  cbn [map flat_map fn]. rewrite map_app, IH. reflexivity.
Qed.

(** ** The manual flag across the stack *)

(** The layers and the output projection follow [manual_norm_weights]. *)
Lemma manual_flag_layers_and_proj_out w c s :
  nFeedforwards_init w c = Some s ->
  Forall (fun nl => NL_parametrize nl = negb (cfg_manual_norm_weights c))
    (flat_map (fun r => ff_norm_linears (fn r)) (layers s) ++ opt_list (proj_out s)).
Proof.
  intros H. apply nFeedforwards_init_inv in H.
  destruct H as (_ & Hls & _ & _ & _ & _ & _ & _ & Hout & Hnone).
  apply Forall_app. split.
  - induction Hls as [|r ls Hr _ IH]; [constructor|].
    change (flat_map (fun r => ff_norm_linears (fn r)) (r :: ls))
      with (ff_norm_linears (fn r)
            ++ flat_map (fun r => ff_norm_linears (fn r)) ls).
    apply Forall_app. split; [|exact IH].
    destruct Hr as [(_ & _ & _ & _ & _ & _ & Hp) _]. exact Hp.
  - destruct (cfg_dim_out c) as [dim_out|].
    + destruct (Hout dim_out eq_refl) as [-> _]. simpl.
      constructor; [apply NormLinear_init_parametrize | constructor].
    + rewrite (Hnone eq_refl). constructor.
Qed.

(** The input projection is parametrized whatever the flag says. *)
Lemma proj_in_parametrized w c s :
  nFeedforwards_init w c = Some s ->
  need_proj_in s = true ->
  exists p, proj_in s = Some p /\ In p (norm_linears s) /\ NL_parametrize p = true.
Proof.
  intros H Hneed. apply nFeedforwards_init_inv in H.
  destruct H as (_ & _ & _ & _ & _ & _ & Hin & _).
  destruct (Hin Hneed) as [Hp _].
  eexists. split; [exact Hp|]. split.
  - unfold norm_linears. rewrite Hp. apply in_or_app. right.
    apply in_or_app. left. simpl. now left.
  - apply NormLinear_init_parametrize.
Qed.

(** C1.  [nFeedforwards(2, 1, dim_in = 3, manual_norm_weights = True)] is
    constructed, and its input projection, one of the [NormLinear] of the
    stack, is in parametrize mode although the flag asks for manual mode. *)
Theorem manual_flag_misses_proj_in (w : nat -> nat -> nat -> R) :
  cfg_manual_norm_weights manual_cfg = true /\
  exists s p,
    nFeedforwards_init w manual_cfg = Some s /\
    proj_in s = Some p /\
    In p (norm_linears s) /\
    NL_parametrize p = true /\
    Forall (fun nl => NL_parametrize nl = false)
      (flat_map (fun r => ff_norm_linears (fn r)) (layers s) ++ opt_list (proj_out s)).
Proof.
  split; [reflexivity|].
  assert (Hs : exists s, nFeedforwards_init w manual_cfg = Some s).
  { apply nFeedforwards_init_Some; try lia; try lra; discriminate. }
  destruct Hs as [s Hs].
  assert (Hneed : need_proj_in s = true).
  { now destruct (nFeedforwards_init_inv _ _ Hs) as (_ & _ & _ & _ & _ & -> & _). }
  destruct (proj_in_parametrized _ _ Hs Hneed) as (p & Hp & Hin & Hpar).
  exists s, p. repeat split; try assumption.
  exact (manual_flag_layers_and_proj_out _ _ Hs).
Qed.

(** ** Normalizing a weight matrix along an axis *)

Lemma rect_mk_matrix (n m : nat) (w : nat -> nat -> R) : rect m (mk_matrix n m w).
Proof.
  unfold rect, mk_matrix. apply Forall_forall. intros r Hr.
  apply in_map_iff in Hr. destruct Hr as (i & <- & _).
  now rewrite length_map, length_seq.
Qed.

Lemma ncols_rect (n : nat) (r : vec) (W : matrix) :
  rect n (r :: W) -> ncols (r :: W) = n.
Proof.
  intros H. inversion H; subst. reflexivity.
Qed.

Lemma nth_map2_div (r ds : vec) :
  length r = length ds ->
  forall j, (j < length r)%nat -> nth j (map2 Rdiv r ds) 0 = nth j r 0 / nth j ds 0.
Proof.
  revert ds. induction r as [|a r IH]; intros [|d ds] Hl j Hj;
    try discriminate; simpl in *; [lia|].
  destruct j as [|j]; [reflexivity|].
  apply IH; [now injection Hl | lia].
Qed.

Lemma length_map2 {A B C : Type} (f : A -> B -> C) (u : list A) (v : list B) :
  length u = length v -> length (map2 f u v) = length u.
Proof.
  intros H. unfold map2. rewrite length_map, length_combine, <- H.
  apply Nat.min_id.
Qed.

Lemma nth_denoms (D : nat -> R) (n j : nat) :
  (j < n)%nat -> nth j (map D (seq 0 n)) 0 = D j.
Proof.
  intros H. rewrite (nth_indep _ 0 (D 0%nat)) by now rewrite length_map, length_seq.
  rewrite map_nth, seq_nth by exact H. reflexivity.
Qed.

Lemma rect_l2norm_cols (n : nat) (W : matrix) : rect n W -> rect n (l2norm_cols W).
Proof.
  intros H. destruct W as [|r0 W0]; [constructor|].
  pose proof (ncols_rect H) as Hn. unfold l2norm_cols. rewrite Hn.
  unfold rect in *. rewrite Forall_forall in *. intros r' Hr'.
  apply in_map_iff in Hr'. destruct Hr' as (r & <- & Hr).
  rewrite length_map2; [now apply H|].
  rewrite length_map, length_seq. now apply H.
Qed.

Lemma rect_l2norm_mat (n : nat) (W : matrix) (dim : Z) :
  rect n W -> rect n (l2norm_mat W dim).
Proof.
  intros H. unfold l2norm_mat. destruct (dim =? 0)%Z.
  - now apply rect_l2norm_cols.
  - unfold l2norm_rows, rect in *. rewrite Forall_forall in *.
    intros r' Hr'. apply in_map_iff in Hr'. destruct Hr' as (r & <- & Hr).
    rewrite length_normalize. now apply H.
Qed.

(** Normalizing along axis 0 normalizes each column. *)
Lemma col_l2norm_cols (n : nat) (W : matrix) (j : nat) :
  rect n W -> (j < n)%nat -> col (l2norm_cols W) j = normalize (col W j).
Proof.
  intros H Hj. destruct W as [|r0 W0]; [reflexivity|].
  pose proof (ncols_rect H) as Hn.
  unfold l2norm_cols. rewrite Hn. unfold col at 1, normalize. rewrite map_map.
  unfold col at 3. rewrite map_map.
  apply map_ext_in. intros r Hr.
  assert (Hlen : length r = n) by (unfold rect in H; rewrite Forall_forall in H; now apply H).
  rewrite nth_map2_div.
  - now rewrite (nth_denoms (fun j => Rmax (norm2 (col (r0 :: W0) j)) eps)).
  - now rewrite length_map, length_seq.
  - lia.
Qed.

(** Normalizing along an axis normalizes each line of that axis. *)
Lemma lines_l2norm_mat (n : nat) (W : matrix) (dim : Z) :
  rect n W -> lines n (l2norm_mat W dim) dim = map normalize (lines n W dim).
Proof.
  intros H. unfold lines, l2norm_mat. destruct (dim =? 0)%Z; [|reflexivity].
  unfold columns. rewrite map_map. apply map_ext_in. intros j Hj.
  apply in_seq in Hj. apply col_l2norm_cols with n; [exact H | lia].
Qed.

(** ** NormLinear: unit norm, idempotence, and the two modes *)

Arguments normalize : simpl never.

Lemma norm2_singleton (x : R) : norm2 [x] = Rabs x.
Proof.
  unfold norm2. simpl. rewrite Rplus_0_r. apply sqrt_Rsqr_abs.
Qed.


Lemma norm2_zeros : norm2 [0; 0] = 0.
Proof.
  unfold norm2. simpl. replace (0 * 0 + (0 * 0 + 0)) with 0 by ring. apply sqrt_0.
Qed.



Lemma Forall2_map_self {A B : Type} (P : A -> B -> Prop) (f : A -> B) (l : list A) :
  (forall a, P a (f a)) -> Forall2 P l (map f l).
Proof.
  intros H. induction l as [|a l IH]; simpl; constructor; [apply H | exact IH].
Qed.

Lemma sized_normalize_unit (v : vec) : sized v -> norm2 (normalize v) = 1.
Proof.
  intros [H _]. now apply normalize_unit.
Qed.

Lemma sized_normalize_twice_unit (v : vec) :
  sized v -> norm2 (normalize (normalize v)) = 1.
Proof.
  intros H. apply normalize_unit. rewrite (sized_normalize_unit H).
  pose proof eps_lt_1. lra.
Qed.

(** C3 (amended).  Line by line along the normalized axis (rows for
    [norm_dim_in = True], columns for [norm_dim_in = False]): where the line
    of the stored parameter has a norm between [eps] and [norm_max], the
    line of the weight used by the forward pass has unit norm.  This holds
    in parametrize mode at any time, in both modes after [norm_weights_],
    and in both modes right after construction. *)
Theorem NormLinear_unit_norm :
  (forall nl : NormLinear,
     rect (NL_dim nl) (NL_param nl) ->
     (NL_parametrize nl = true ->
      unit_where_sized (lines (NL_dim nl) (NL_param nl) (NL_l2norm nl))
        (lines (NL_dim nl) (NormLinear_weight nl) (NL_l2norm nl))) /\
     unit_where_sized (lines (NL_dim nl) (NL_param nl) (NL_l2norm nl))
       (lines (NL_dim nl) (NormLinear_weight (NormLinear_norm_weights_ nl))
          (NL_l2norm nl))) /\
  (forall w d d_out norm_dim_in p,
     let axis := if norm_dim_in : bool then (-1)%Z else 0%Z in
     unit_where_sized (lines d (mk_matrix d_out d w) axis)
       (lines d (NormLinear_weight (NormLinear_init w d d_out norm_dim_in p)) axis)).
Proof.
  assert (A : forall nl : NormLinear,
     rect (NL_dim nl) (NL_param nl) ->
     (NL_parametrize nl = true ->
      unit_where_sized (lines (NL_dim nl) (NL_param nl) (NL_l2norm nl))
        (lines (NL_dim nl) (NormLinear_weight nl) (NL_l2norm nl))) /\
     unit_where_sized (lines (NL_dim nl) (NL_param nl) (NL_l2norm nl))
       (lines (NL_dim nl) (NormLinear_weight (NormLinear_norm_weights_ nl))
          (NL_l2norm nl))).
  { intros nl Hr.
    pose proof (lines_l2norm_mat (NL_l2norm nl) Hr) as H1.
    pose proof (lines_l2norm_mat (NL_l2norm nl)
                  (rect_l2norm_mat (NL_l2norm nl) Hr)) as H2.
    split.
    - intros Hp. unfold NormLinear_weight. rewrite Hp, H1.
      apply Forall2_map_self. intros v. apply sized_normalize_unit.
    - destruct (NormLinear_norm_weights_fields nl) as (_ & _ & Hp & Ha & Hw).
      unfold NormLinear_weight. rewrite Hp, Ha, Hw.
      destruct (NL_parametrize nl).
      + rewrite H2, H1, map_map.
        apply Forall2_map_self. intros v. apply sized_normalize_twice_unit.
      + rewrite H1. apply Forall2_map_self. intros v. apply sized_normalize_unit. }
  split; [exact A|].
  intros w d d_out norm_dim_in p axis. unfold NormLinear_init.
  apply (A (mkNL d d_out p axis (mk_matrix d_out d w))); simpl.
  apply rect_mk_matrix.
Qed.

Lemma sized_two : sized [2].
Proof.
  unfold sized, norm_max. rewrite norm2_singleton, Rabs_right by lra.
  pose proof eps_lt_1. split; [lra|].
  apply Rle_trans with (10 ^ 1); [simpl; lra|].
  apply Rle_pow; [lra | lia].
Qed.

Lemma NormLinear_unit_norm_witness :
  unit_lines 1 (NormLinear_weight (mkNL 1 1 true (-1) [[2]])) (-1).
Proof.
  assert (Hr : rect 1 [[2]]) by (repeat constructor).
  pose proof (proj1 (proj1 NormLinear_unit_norm (mkNL 1 1 true (-1) [[2]]) Hr)
                eq_refl) as H.
  unfold unit_lines. unfold unit_where_sized in H.
  cbn [NL_dim NL_param NL_l2norm] in H.
  change (lines 1 [[2]] (-1)) with [[2]] in H.
  remember (lines 1 (NormLinear_weight (mkNL 1 1 true (-1) [[2]])) (-1)) as L.
  inversion H as [|v u l l' Hvu Hrest]; subst.
  inversion Hrest; subst.
  apply Forall_cons; [apply Hvu, sized_two | apply Forall_nil].
Defined.

(** C3 as stated fails on a zero row: the weight read from a parametrized
    layer, the weight of a manual layer after [norm_weights_], and the
    weight of a layer constructed from a zero matrix keep a row of norm 0. *)
Lemma zero_row_not_unit :
  ~ unit_lines 2 (NormLinear_weight (mkNL 2 1 true (-1) [[0; 0]])) (-1) /\
  ~ unit_lines 2 (NormLinear_weight
                    (NormLinear_norm_weights_ (mkNL 2 1 false (-1) [[0; 0]]))) (-1) /\
  ~ unit_lines 2 (NormLinear_weight (NormLinear_init (fun _ _ => 0) 2 1 true true)) (-1).
Proof.
  assert (Hn : normalize [0; 0] = [0; 0]) by apply normalize_of_zero, norm2_zeros.
  assert (H0 : ~ unit_lines 2 [[0; 0]] (-1)).
  { intros H. inversion H as [|? ? H1 _]; subst. rewrite norm2_zeros in H1. lra. }
  repeat split; cbv [NormLinear_init NormLinear_weight NormLinear_norm_weights_
                      set_param NL_parametrize NL_param NL_l2norm l2norm_mat
                      l2norm_rows mk_matrix Z.eqb];
    simpl; rewrite ?Hn; exact H0.
Qed.








(** ** Residual: the norm of the output *)


(** C2 (amended).  The tensor returned by [Residual.forward] is the
    normalization of the blend [x.lerp(l2norm(out), step)]: position by
    position, where the feature vector of the blend has a norm between
    [eps] and [norm_max], the returned feature vector has unit norm. *)
Theorem Residual_output_norm (F K X : Type)
    (call : F -> tensor -> K -> option (output X))
    (r : Residual F) (x : tensor) (kwargs : K) (o : output X) :
  Residual_forward call r x kwargs = Some o ->
  exists out blended,
    call (fn r) x kwargs = Some out /\
    Residual_blend r x (primary out) = Some blended /\
    primary o = l2norm blended /\
    unit_where_sized (rows blended) (rows (primary o)).
Proof.
  unfold Residual_forward, Residual_blend. intros H.
  destruct (call (fn r) x kwargs) as [out|]; [simpl in H|discriminate].
  exists out.
  assert (Hp : match out with Tupled t _ => t | Plain t => t end = primary out)
    by now destruct out.
  rewrite Hp in H.
  destruct (lerp x (l2norm (primary out)) (Scale_forward (branch_scale r)))
    as [blended|]; [simpl in H|discriminate].
  exists blended. split; [reflexivity|]. split; [reflexivity|].
  assert (Ho : primary o = l2norm blended).
  { destruct out; injection H as <-; reflexivity. }
  split; [exact Ho|]. rewrite Ho. cbn [l2norm rows].
  apply Forall2_map_self. intros v. apply sized_normalize_unit.
Qed.

Lemma lerp_row2 (a b c d s t : R) :
  lerp (mkT [] 2 [[a; b]]) (mkT [] 2 [[c; d]]) [s; t]
  = Some (mkT [] 2 [[a + (c - a) * s; b + (d - b) * t]]).
Proof. reflexivity. Qed.

Lemma norm2_e1 : norm2 [1; 0] = 1 /\ norm2 [-1; 0] = 1.
Proof.
  unfold norm2. simpl. split.
  - replace (1 * 1 + (0 * 0 + 0)) with 1 by ring. apply sqrt_1.
  - replace (-1 * -1 + (0 * 0 + 0)) with 1 by ring. apply sqrt_1.
Qed.

(** [Residual(fn, 2, init = 0.5, scale = 1.)]: the learned vector is
    [[1; 1]], the factor is [0.5 / 1.], and the step is 1/2 on each
    channel. *)
Lemma Residual_init_half :
  exists r : Residual unit,
    Residual_init tt 2 (1 / 2) (Some 1) = Some r /\
    Scale_forward (branch_scale r) = [1 / 2; 1 / 2].
Proof.
  assert (H2 : (2 <> 0)%nat) by lia.
  assert (Hne : 1 <> 0) by lra.
  unfold Residual_init. rewrite (pow_neg_half_Some H2).
  cbn [bind default]. rewrite (Scale_init_Some 2 (1 / 2) Hne). cbn [bind].
  eexists. split; [reflexivity|]. cbn [branch_scale].
  unfold Scale_forward. cbn [Scale_scale Scale_forward_scale map repeat].
  f_equal; [field | f_equal; field].
Qed.

Lemma Residual_forward_plain (F K X : Type)
    (call : F -> tensor -> K -> option (output X))
    (r : Residual F) (x out b : tensor) (kwargs : K) :
  call (fn r) x kwargs = Some (Plain out) ->
  lerp x (l2norm out) (Scale_forward (branch_scale r)) = Some b ->
  Residual_forward call r x kwargs = Some (Plain (l2norm b)).
Proof.
  intros Hc Hl. unfold Residual_forward. rewrite Hc. cbn [bind].
  rewrite Hl. reflexivity.
Qed.

Lemma sized_e1 : sized [1; 0].
Proof.
  unfold sized, norm_max. rewrite (proj1 norm2_e1).
  pose proof eps_lt_1. split; [lra|].
  apply Rle_trans with (10 ^ 0); [simpl; lra|].
  apply Rle_pow; [lra | lia].
Qed.

Lemma Residual_output_norm_witness :
  exists (r : Residual unit) (o : output unit),
    Residual_forward id_call r (mkT [] 2 [[1; 0]]) tt = Some o /\
    Forall (fun v => norm2 v = 1) (rows (primary o)).
Proof.
  destruct Residual_init_half as (r & _ & Hs).
  destruct norm2_e1 as [H1 _].
  assert (L : lerp (mkT [] 2 [[1; 0]]) (l2norm (mkT [] 2 [[1; 0]]))
                (Scale_forward (branch_scale r))
              = Some (mkT [] 2 [[1 + (1 - 1) * (1 / 2); 0 + (0 - 0) * (1 / 2)]])).
  { rewrite Hs. change (l2norm (mkT [] 2 [[1; 0]])) with (mkT [] 2 [normalize [1; 0]]).
    rewrite (normalize_of_unit _ H1). apply lerp_row2. }
  assert (E : Residual_forward id_call r (mkT [] 2 [[1; 0]]) tt
              = Some (Plain (l2norm (mkT [] 2 [[1 + (1 - 1) * (1 / 2);
                                                0 + (0 - 0) * (1 / 2)]])))).
  { apply Residual_forward_plain with (out := mkT [] 2 [[1; 0]]);
      [reflexivity | exact L]. }
  exists r, (Plain (l2norm (mkT [] 2 [[1 + (1 - 1) * (1 / 2); 0 + (0 - 0) * (1 / 2)]]))).
  split; [exact E|].
  destruct (Residual_output_norm id_call r (mkT [] 2 [[1; 0]]) tt E)
    as (out & blended & Hc & Hb & _ & Hunit).
  injection Hc as <-. unfold Residual_blend in Hb. cbn [primary] in Hb.
  rewrite L in Hb. injection Hb as <-.
  unfold unit_where_sized in Hunit. cbn [rows primary l2norm map] in Hunit.
  cbn [rows primary l2norm map].
  inversion Hunit as [|v u l l' Hvu Hrest]; subst.
  apply Forall_cons; [|apply Forall_nil]. apply Hvu.
  replace (1 + (1 - 1) * (1 / 2)) with 1 by field.
  replace (0 + (0 - 0) * (1 / 2)) with 0 by field.
  exact sized_e1.
Defined.

(** C2 as stated fails when the blend vanishes: on the unit vector
    [[1; 0]], with a wrapped module that returns the opposite vector and
    [Residual(fn, 2, init = 0.5, scale = 1.)], whose step is exactly 1/2 on
    each channel, [Residual.forward] returns [[0; 0]]. *)
Lemma Residual_zero_blend :
  exists r : Residual unit,
    Residual_init tt 2 (1 / 2) (Some 1) = Some r /\
    Forall (fun v => norm2 v = 1) (rows (mkT [] 2 [[1; 0]])) /\
    Residual_forward neg_call r (mkT [] 2 [[1; 0]]) tt
    = Some (Plain (mkT [] 2 [[0; 0]])) /\
    ~ Forall (fun v => norm2 v = 1) (rows (mkT [] 2 [[0; 0]])).
Proof.
  destruct Residual_init_half as (r & Hr & Hs).
  destruct norm2_e1 as [H1 Hm].
  exists r. split; [exact Hr|]. split; [|split].
  - simpl. apply Forall_cons; [exact H1 | apply Forall_nil].
  - assert (Hz : mkT [] 2 [[0; 0]]
                 = l2norm (mkT [] 2 [[1 + (-1 - 1) * (1 / 2); 0 + (0 - 0) * (1 / 2)]])).
    { change (l2norm (mkT [] 2 [[1 + (-1 - 1) * (1 / 2); 0 + (0 - 0) * (1 / 2)]]))
        with (mkT [] 2 [normalize [1 + (-1 - 1) * (1 / 2); 0 + (0 - 0) * (1 / 2)]]).
      replace (1 + (-1 - 1) * (1 / 2)) with 0 by field.
      replace (0 + (0 - 0) * (1 / 2)) with 0 by field.
      now rewrite (normalize_of_zero _ norm2_zeros). }
    rewrite Hz.
    apply Residual_forward_plain with (out := mkT [] 2 [[1 * -1; 0 * -1]]);
      [reflexivity|].
    rewrite Hs.
    change (l2norm (mkT [] 2 [[1 * -1; 0 * -1]]))
      with (mkT [] 2 [normalize [1 * -1; 0 * -1]]).
    replace (1 * -1) with (-1) by ring. replace (0 * -1) with 0 by ring.
    rewrite (normalize_of_unit _ Hm). apply lerp_row2.
  - simpl. intros H. inversion H as [|? ? H0 _]; subst.
    rewrite norm2_zeros in H0. lra.
Qed.

(** ** Shapes through the forward pass *)

Lemma bdim_same (n : nat) : bdim n n = Some n.
Proof. unfold bdim. now rewrite Nat.eqb_refl. Qed.

Lemma expand_same (n : nat) (v : vec) : length v = n -> expand n v = v.
Proof.
  intros H. unfold expand. apply Nat.eqb_eq in H. now rewrite H.
Qed.

Lemma Forall_combine {A B : Type} (P : A -> Prop) (Q : B -> Prop)
    (u : list A) (v : list B) :
  Forall P u -> Forall Q v ->
  Forall (fun p => P (fst p) /\ Q (snd p)) (combine u v).
Proof.
  intros Hu. revert v. induction Hu as [|a u Ha _ IH]; intros v Hv; simpl.
  - constructor.
  - destruct Hv as [|b v Hb Hv]; constructor; [now split | now apply IH].
Qed.

Lemma l2norm_shape (x : tensor) (bs : list nat) (d : nat) :
  has_shape x bs d -> has_shape (l2norm x) bs d.
Proof.
  intros (Hb & Hd & Hl & Hr). unfold has_shape, wf, l2norm. simpl.
  repeat split; try assumption.
  - now rewrite length_map.
  - apply Forall_map. eapply Forall_impl; [|exact Hr].
    intros r Hlen. now rewrite length_normalize.
Qed.

Lemma pad_shape (x : tensor) (c : R) (bs : list nat) (d : nat) :
  has_shape x bs d -> has_shape (pad x c) bs (S d).
Proof.
  intros (Hb & Hd & Hl & Hr). unfold has_shape, wf, pad. simpl.
  repeat split; try assumption.
  - now rewrite Hd.
  - now rewrite length_map.
  - apply Forall_map. eapply Forall_impl; [|exact Hr].
    intros r Hlen. cbv beta in Hlen. rewrite length_app. simpl. lia.
Qed.

Lemma mul_scalar_shape (x : tensor) (c : R) (bs : list nat) (d : nat) :
  has_shape x bs d -> has_shape (mul_scalar x c) bs d.
Proof.
  intros (Hb & Hd & Hl & Hr). unfold has_shape, wf, mul_scalar. simpl.
  repeat split; try assumption.
  - now rewrite length_map.
  - apply Forall_map. eapply Forall_impl; [|exact Hr].
    intros r Hlen. now rewrite length_map.
Qed.

Lemma silu_shape (x : tensor) (bs : list nat) (d : nat) :
  has_shape x bs d -> has_shape (silu x) bs d.
Proof.
  intros (Hb & Hd & Hl & Hr). unfold has_shape, wf, silu. simpl.
  repeat split; try assumption.
  - now rewrite length_map.
  - apply Forall_map. eapply Forall_impl; [|exact Hr].
    intros r Hlen. now rewrite length_map.
Qed.

Lemma NormLinear_forward_shape (nl : NormLinear) (x : tensor)
    (bs : list nat) (d d' : nat) :
  nl_shape nl d d' -> has_shape x bs d ->
  exists y, NormLinear_forward nl x = Some y /\ has_shape y bs d'.
Proof.
  intros [Hin Hout] (Hb & Hd & Hl & Hr).
  unfold NormLinear_forward, linear. rewrite Hin, Hd, Nat.eqb_refl.
  eexists. split; [reflexivity|]. unfold has_shape, wf. simpl.
  repeat split; try assumption.
  - now rewrite length_map.
  - apply Forall_map. apply Forall_forall. intros r _.
    now rewrite length_map.
Qed.

Lemma mul_vec_shape (x : tensor) (s : vec) (bs : list nat) (d : nat) :
  has_shape x bs d -> length s = d ->
  exists y, mul_vec x s = Some y /\ has_shape y bs d.
Proof.
  intros (Hb & Hd & Hl & Hr) Hs. unfold mul_vec.
  rewrite Hd, Hs, bdim_same. cbn [bind].
  eexists. split; [reflexivity|]. unfold has_shape, wf. simpl.
  repeat split; try assumption.
  - now rewrite length_map.
  - apply Forall_map. eapply Forall_impl; [|exact Hr].
    intros r Hlen. simpl in Hlen. rewrite Hd in Hlen.
    rewrite !expand_same by assumption.
    rewrite length_map2; congruence.
Qed.

Lemma broadcast_rev_same (l : list nat) : broadcast_rev l l = Some l.
Proof.
  induction l as [|n l IH]; [reflexivity|].
  cbn [broadcast_rev]. rewrite bdim_same. cbn [bind]. now rewrite IH.
Qed.

Lemma broadcast_shapes_same (bs : list nat) : broadcast_shapes bs bs = Some bs.
Proof.
  unfold broadcast_shapes. rewrite broadcast_rev_same. simpl.
  now rewrite rev_involutive.
Qed.

Lemma align_shape_same (bs : list nat) : align_shape (length bs) bs = bs.
Proof.
  unfold align_shape. now rewrite Nat.sub_diag.
Qed.

Lemma chunks_concat {A : Type} (n size : nat) (l : list A) :
  length l = (n * size)%nat -> concat (chunks n size l) = l.
Proof.
  revert l. induction n as [|n IH]; intros l H.
  - destruct l; [reflexivity|discriminate].
  - cbn [chunks concat]. rewrite IH.
    + apply firstn_skipn.
    + rewrite length_skipn. lia.
Qed.

Lemma chunks_lengths {A : Type} (n size : nat) (l : list A) :
  length l = (n * size)%nat -> Forall (fun c => length c = size) (chunks n size l).
Proof.
  revert l. induction n as [|n IH]; intros l H; cbn [chunks]; constructor.
  - rewrite length_firstn. lia.
  - apply IH. rewrite length_skipn. lia.
Qed.



(** Expanding to the same batch shape changes nothing. *)
Lemma expand_rows_same (bs : list nat) (rws : list vec) :
  length rws = fold_right Nat.mul 1%nat bs -> expand_rows bs bs rws = rws.
Proof.
  revert rws. induction bs as [|n bs IH]; intros rws H; [reflexivity|].
  cbn [expand_rows]. rewrite Nat.eqb_refl. cbn [fold_right] in H.
  transitivity (concat (chunks n (fold_right Nat.mul 1%nat bs) rws));
    [|now apply chunks_concat].
  f_equal.
  transitivity (map (fun c : list vec => c) (chunks n (fold_right Nat.mul 1%nat bs) rws));
    [|apply map_id].
  apply map_ext_in. intros c Hc. apply IH.
  pose proof (chunks_lengths n _ rws H) as Hl. rewrite Forall_forall in Hl.
  now apply Hl.
Qed.


(** On two tensors of the same batch shape the operation acts feature
    vector by feature vector. *)
Lemma tmap2_same (f : R -> R -> R) (a b : tensor) :
  bshape a = bshape b ->
  length (rows a) = fold_right Nat.mul 1%nat (bshape a) ->
  length (rows b) = fold_right Nat.mul 1%nat (bshape b) ->
  tmap2 f a b
  = do n <- bdim (fdim a) (fdim b);
    Some (mkT (bshape a) n
            (map2 (fun r s => map2 f (expand n r) (expand n s)) (rows a) (rows b))).
Proof.
  intros Hab Ha Hb. unfold tmap2. rewrite <- Hab, broadcast_shapes_same.
  cbn [bind]. destruct (bdim (fdim a) (fdim b)) as [n|]; [cbn [bind]|reflexivity].
  rewrite align_shape_same, (expand_rows_same _ _ Ha).
  rewrite <- Hab in Hb. now rewrite (expand_rows_same _ _ Hb).
Qed.

(** A tensor of batch shape [[2]] and a tensor without batch axis: the
    second is repeated along the batch axis. *)
Example tmap2_broadcasts :
  tmap2 Rplus (mkT [2%nat] 1 [[1]; [2]]) (mkT [] 1 [[10]])
  = Some (mkT [2%nat] 1 [[1 + 10]; [2 + 10]]).
Proof. reflexivity. Qed.

Lemma tmap2_shape (f : R -> R -> R) (a b : tensor) (bs : list nat) (d : nat) :
  has_shape a bs d -> has_shape b bs d ->
  exists y, tmap2 f a b = Some y /\ has_shape y bs d.
Proof.
  intros (Hba & Hda & Hla & Hra) (Hbb & Hdb & Hlb & Hrb).
  rewrite tmap2_same by congruence.
  rewrite Hda, Hdb, bdim_same. cbn [bind].
  eexists. split; [reflexivity|]. unfold has_shape, wf. simpl.
  repeat split; try assumption.
  - rewrite length_map2; congruence.
  - unfold map2 at 1. apply Forall_map.
    eapply Forall_impl; [|exact (Forall_combine Hra Hrb)].
    intros [r s] [Hr Hs]. simpl in *. rewrite Hda in Hr. rewrite Hdb in Hs.
    rewrite !expand_same by assumption.
    rewrite length_map2; congruence.
Qed.

Lemma lerp_shape (start end_ : tensor) (weight : vec) (bs : list nat) (d : nat) :
  has_shape start bs d -> has_shape end_ bs d -> length weight = d ->
  exists y, lerp start end_ weight = Some y /\ has_shape y bs d.
Proof.
  intros Hs He Hw. unfold lerp.
  destruct (tmap2_shape Rminus He Hs) as (t1 & -> & H1). cbn [bind].
  destruct (mul_vec_shape weight H1 Hw) as (t2 & -> & H2). cbn [bind].
  apply tmap2_shape; assumption.
Qed.

Lemma nFeedforward_forward_shape (ff : nFeedforward) (manual : bool)
    (x : tensor) (bs : list nat) (dim : nat) :
  ff_ok dim manual ff -> has_shape x bs dim ->
  exists y, nFeedforward_forward ff x = Some y /\ has_shape y bs dim.
Proof.
  intros (Hdim & Hh & Hg & Ho & Hhs & Hgs & _) Hx. unfold nFeedforward_forward.
  destruct (NormLinear_forward_shape Hh Hx) as (h & -> & Hsh). cbn [bind].
  destruct (NormLinear_forward_shape Hg Hx) as (g & -> & Hsg). cbn [bind].
  destruct (mul_vec_shape _ Hsh Hhs) as (h' & -> & Hsh'). cbn [bind].
  destruct (mul_vec_shape _ Hsg Hgs) as (g' & -> & Hsg'). cbn [bind].
  pose proof (silu_shape (mul_scalar_shape (sqrt (INR (ff_dim ff))) Hsg')) as Hsilu.
  destruct (tmap2_shape Rmult Hsilu Hsh') as (a & -> & Ha). cbn [bind].
  exact (NormLinear_forward_shape Ho Ha).
Qed.

Lemma Residual_forward_shape (r : Residual nFeedforward) (manual : bool)
    (x : tensor) (bs : list nat) (dim : nat) :
  layer_ok dim manual r -> has_shape x bs dim ->
  exists y, Residual_forward call_ff r x tt = Some (Plain y) /\ has_shape y bs dim.
Proof.
  intros [Hff Hsc] Hx. unfold Residual_forward, call_ff.
  destruct (nFeedforward_forward_shape Hff Hx) as (out & -> & Hout).
  cbn [option_map bind].
  destruct (lerp_shape _ Hx (l2norm_shape Hout) Hsc) as (b & -> & Hb). cbn [bind].
  eexists. split; [reflexivity|]. now apply l2norm_shape.
Qed.

Lemma run_layers_shape (manual : bool) (bs : list nat) (dim : nat)
    (ls : list (Residual nFeedforward)) :
  Forall (layer_ok dim manual) ls ->
  forall x, has_shape x bs dim ->
  exists y, run_layers ls x = Some y /\ has_shape y bs dim.
Proof.
  induction 1 as [|r ls Hr _ IH]; intros x Hx; simpl.
  - now exists x.
  - destruct (Residual_forward_shape Hr Hx) as (x' & -> & Hx'). cbn [bind].
    now apply IH.
Qed.

(** C9.  On a constructed stack and a well-formed input of shape
    [[B1; ...; Bk; d]] whose [d] is the configured input size ([dim_in], or
    [dim] when [dim_in] is not given), the forward pass returns a tensor
    whose shape is the input shape with the trailing size replaced by
    [dim_out], or by [dim] when [dim_out] is not given; with neither
    [dim_in] nor [dim_out] nor [input_preserve_magnitude] it is the input
    shape. *)
Theorem nFeedforwards_forward_shape (w : nat -> nat -> nat -> R) (c : config)
    (s : nFeedforwards) (x : tensor) :
  nFeedforwards_init w c = Some s ->
  wf x ->
  fdim x = default (cfg_dim_in c) (cfg_dim c) ->
  exists y,
    nFeedforwards_forward s x = Some y /\
    wf y /\
    shape y = bshape x ++ [default (cfg_dim_out c) (cfg_dim c)] /\
    (forall dim_out, cfg_dim_out c = Some dim_out -> shape y = bshape x ++ [dim_out]) /\
    (cfg_dim_in c = None -> cfg_dim_out c = None ->
     cfg_input_preserve_magnitude c = false -> shape y = shape x).
Proof.
  intros Hinit Hwf Hd.
  destruct (nFeedforwards_init_inv _ _ Hinit)
    as (_ & Hls & _ & Hipm & Hcs & Hneed & Hin & Hneed_out & Hout & Hnone).
  set (bs := bshape x).
  assert (Hx : has_shape x bs (default (cfg_dim_in c) (cfg_dim c)))
    by (split; [reflexivity | split; assumption]).
  (* the magnitude-preserving shift *)
  set (x1 := if nff_input_preserve_magnitude s
             then l2norm (pad x (nff_constant_shift s)) else x).
  assert (Hx1 : has_shape x1 bs (default (cfg_dim_in c) (cfg_dim c)
                                 + (if cfg_input_preserve_magnitude c then 1 else 0))).
  { unfold x1. rewrite Hipm. destruct (cfg_input_preserve_magnitude c).
    - rewrite Nat.add_1_r. now apply l2norm_shape, pad_shape.
    - now rewrite Nat.add_0_r. }
  (* the input projection *)
  assert (H2 : exists x2,
             (if need_proj_in s then
                match proj_in s, proj_in_scale s with
                | Some p, Some sc =>
                    do y <- NormLinear_forward p x1;
                    do y <- mul_vec y (Scale_forward sc);
                    Some (l2norm y)
                | _, _ => None
                end
              else Some x1) = Some x2 /\ has_shape x2 bs (cfg_dim c)).
  { destruct (need_proj_in s) eqn:En.
    - destruct (Hin eq_refl) as [-> (sc & -> & Hsc)].
      apply Scale_init_value in Hsc. destruct Hsc as (_ & _ & Hsc).
      match goal with
      | |- context [NormLinear_forward ?p x1] =>
          assert (Hp : nl_shape p (default (cfg_dim_in c) (cfg_dim c)
                                   + (if cfg_input_preserve_magnitude c then 1 else 0))
                         (cfg_dim c)) by apply NormLinear_init_shape
      end.
      destruct (NormLinear_forward_shape Hp Hx1) as (y & -> & Hy). cbn [bind].
      destruct (mul_vec_shape _ Hy Hsc) as (y' & -> & Hy'). cbn [bind].
      eexists. split; [reflexivity|]. now apply l2norm_shape.
    - exists x1. split; [reflexivity|].
      symmetry in Hneed. apply orb_false_iff in Hneed. destruct Hneed as [Hn1 Hn2].
      rewrite Hn2, Nat.add_0_r in Hx1.
      destruct (cfg_dim_in c); [discriminate | exact Hx1]. }
  destruct H2 as (x2 & E2 & Hx2).
  (* the layers *)
  destruct (run_layers_shape Hls Hx2) as (x3 & E3 & Hx3).
  (* the output projection *)
  assert (H4 : exists y,
             (if need_proj_out s then
                match proj_out s, proj_out_scale s with
                | Some p, Some sc =>
                    do y <- NormLinear_forward p x3;
                    mul_vec y (Scale_forward sc)
                | _, _ => None
                end
              else Some x3) = Some y
             /\ has_shape y bs (default (cfg_dim_out c) (cfg_dim c))).
  { rewrite Hneed_out. destruct (cfg_dim_out c) as [dim_out|]; simpl.
    - destruct (Hout dim_out eq_refl) as [-> (sc & d & -> & _ & Hsc)].
      apply Scale_init_value in Hsc. destruct Hsc as (_ & _ & Hsc).
      match goal with
      | |- context [NormLinear_forward ?p x3] =>
          assert (Hp : nl_shape p (cfg_dim c) dim_out) by apply NormLinear_init_shape
      end.
      destruct (NormLinear_forward_shape Hp Hx3) as (y & -> & Hy). cbn [bind].
      exact (mul_vec_shape _ Hy Hsc).
    - now exists x3. }
  destruct H4 as (y & E4 & Hb & Hf & Hwfy).
  exists y.
  assert (Hshape : shape y = bshape x ++ [default (cfg_dim_out c) (cfg_dim c)]).
  { unfold shape. now rewrite Hb, Hf. }
  split; [|split; [exact Hwfy | split; [exact Hshape | split]]].
  - unfold nFeedforwards_forward. fold x1. rewrite E2. cbn [bind].
    rewrite E3. cbn [bind]. exact E4.
  - intros dim_out Ho. rewrite Hshape, Ho. reflexivity.
  - intros Hi Ho _. rewrite Hshape. unfold shape. rewrite Hd, Hi, Ho. reflexivity.
Qed.

Lemma nFeedforwards_forward_shape_witness :
  exists s y,
    nFeedforwards_init (fun _ _ _ => 1) self_check_cfg = Some s /\
    nFeedforwards_forward s (mkT [2%nat] 128 (repeat (repeat 0 128) 2)) = Some y /\
    shape y = [2%nat; 128%nat].
Proof.
  assert (Hs : exists s, nFeedforwards_init (fun _ _ _ => 1) self_check_cfg = Some s).
  { apply nFeedforwards_init_Some; try discriminate; lra. }
  destruct Hs as [s Hs].
  assert (Hwf : wf (mkT [2%nat] 128 (repeat (repeat 0 128) 2))).
  { split; [reflexivity|]. cbn [rows fdim].
    apply Forall_forall. intros r Hr. apply repeat_spec in Hr. subst r.
    apply repeat_length. }
  destruct (@nFeedforwards_forward_shape (fun _ _ _ => 1) self_check_cfg s
              (mkT [2%nat] 128 (repeat (repeat 0 128) 2)) Hs Hwf eq_refl)
    as (y & Hy & _ & Hshape & _).
  exists s, y. split; [exact Hs|]. split; [exact Hy|]. exact Hshape.
Defined.

(** ** More on the construction of a stack *)

(** X1.  [cast_tuple] returns exactly in two cases: a tuple of the asked
    length, returned as it is, or a scalar, returned repeated. *)
Theorem cast_tuple_spec {A : Type} (t : hparam A) (n : nat) (l : list A) :
  cast_tuple t n = Some l <->
  (t = Tuple l /\ length l = n) \/ (exists v, t = Scalar v /\ l = repeat v n).
Proof.
  split.
  - intros H. pose proof (cast_tuple_length _ _ H) as Hl.
    destruct t as [v|l0].
    + right. exists v. rewrite cast_tuple_Scalar in H. now injection H as <-.
    + left. rewrite (cast_tuple_Tuple_good _ (n := n)) in H.
      * injection H as <-. now split.
      * unfold cast_tuple in H.
        destruct (Nat.eqb_spec (length l0) n); [assumption|discriminate].
  - intros [[-> Hl]|(v & -> & ->)].
    + now apply cast_tuple_Tuple_good.
    + apply cast_tuple_Scalar.
Qed.

(** X2.  The two [alpha_attn] arguments are validated like the others: given
    as a tuple whose length is not [depth], either makes the construction
    raise, although no layer reads them. *)
Theorem alpha_attn_length_validated (w : nat -> nat -> nat -> R) (c : config) :
  bad_length (cfg_alpha_attn_init c) (cfg_depth c) \/
  bad_length (cfg_alpha_attn_scale c) (cfg_depth c) ->
  nFeedforwards_init w c = None.
Proof.
  intros H. unfold nFeedforwards_init. cbv zeta.
  destruct (cfg_depth c =? 0)%nat; [reflexivity|]. simpl.
  destruct H as [H|H]; apply cast_tuple_bad in H; rewrite H; simpl;
    try reflexivity; skip_binds.
Qed.

Lemma alpha_attn_length_validated_witness :
  nFeedforwards_init (fun _ _ _ => 1)
    (set_alpha_attn (cfg_example 2 (Scalar 1)) (Tuple [Some 1]) (Scalar None)) = None.
Proof.
  apply (@alpha_attn_length_validated (fun _ _ _ => 1)
           (set_alpha_attn (cfg_example 2 (Scalar 1)) (Tuple [Some 1]) (Scalar None))).
  left. exists [Some 1]. split; [reflexivity|]. simpl. lia.
Defined.

(** The hyper-parameter tuples and the layers of a constructed stack. *)
Lemma nFeedforwards_init_layers w c s :
  nFeedforwards_init w c = Some s ->
  cfg_depth c <> 0%nat /\
  exists l1 l2 l3 l4 l5 l6 l7 l8,
    cast_tuple (cfg_alpha_attn_init c) (cfg_depth c) = Some l1 /\
    cast_tuple (cfg_alpha_attn_scale c) (cfg_depth c) = Some l2 /\
    cast_tuple (cfg_alpha_ff_init c) (cfg_depth c) = Some l3 /\
    cast_tuple (cfg_alpha_ff_scale c) (cfg_depth c) = Some l4 /\
    cast_tuple (cfg_s_ff_hidden_init c) (cfg_depth c) = Some l5 /\
    cast_tuple (cfg_s_ff_hidden_scale c) (cfg_depth c) = Some l6 /\
    cast_tuple (cfg_s_ff_gate_init c) (cfg_depth c) = Some l7 /\
    cast_tuple (cfg_s_ff_gate_scale c) (cfg_depth c) = Some l8 /\
    build_layers w 0 (cfg_dim c) (cfg_ff_expand_factor c) (cfg_manual_norm_weights c)
      (default (cfg_alpha_init c) (1 / INR (cfg_depth c)))
      (combine l1 (combine l2 (combine l3 (combine l4 (combine l5 (combine l6
         (combine l7 l8)))))))
    = Some (layers s).
Proof.
  unfold nFeedforwards_init. cbv zeta.
  destruct (Nat.eqb_spec (cfg_depth c) 0) as [E0|E0]; [discriminate|]. simpl.
  destruct (cast_tuple (cfg_alpha_attn_init c) _) as [l1|]; [simpl|discriminate].
  destruct (cast_tuple (cfg_alpha_attn_scale c) _) as [l2|]; [simpl|discriminate].
  destruct (cast_tuple (cfg_alpha_ff_init c) _) as [l3|]; [simpl|discriminate].
  destruct (cast_tuple (cfg_alpha_ff_scale c) _) as [l4|]; [simpl|discriminate].
  destruct (cast_tuple (cfg_s_ff_hidden_init c) _) as [l5|]; [simpl|discriminate].
  destruct (cast_tuple (cfg_s_ff_hidden_scale c) _) as [l6|]; [simpl|discriminate].
  destruct (cast_tuple (cfg_s_ff_gate_init c) _) as [l7|]; [simpl|discriminate].
  destruct (cast_tuple (cfg_s_ff_gate_scale c) _) as [l8|]; [simpl|discriminate].
  match goal with
  | |- bind ?b _ = Some _ -> _ => destruct b as [ls|] eqn:Els; [simpl|discriminate]
  end.
  intros H. split; [exact E0|].
  exists l1, l2, l3, l4, l5, l6, l7, l8. repeat split.
  rewrite Els. f_equal.
  destruct (exists_ (cfg_dim_in c) || cfg_input_preserve_magnitude c);
    [destruct (Scale_init (cfg_dim c) 1 1); [simpl in H|discriminate]|simpl in H];
    (destruct (cfg_dim_out c);
     [ destruct (pow_neg_half (cfg_dim c)); [simpl in H|discriminate];
       match type of H with
       | bind (option_map _ ?m) _ = _ => destruct m; [simpl in H|discriminate]
       end
     | simpl in H ]);
    now injection H as <-.
Qed.

Lemma build_layers_length w dim ef manual alpha_init hps :
  forall k ls,
    build_layers w k dim ef manual alpha_init hps = Some ls ->
    length ls = length hps.
Proof.
  induction hps as [|hp hps IH]; intros k ls H; simpl in H.
  - now injection H as <-.
  - destruct hp as (z1 & z2 & z3 & z4 & z5 & z6 & z7 & z8).
    destruct (nFeedforward_init w k dim ef manual z5 z6 z7 z8); [simpl in H|discriminate].
    destruct (pow_neg_half dim) as [d|]; [simpl in H|discriminate].
    destruct (Residual_init _ _ _ _); [simpl in H|discriminate].
    destruct (build_layers w (k + 3) dim ef manual alpha_init hps) as [rest|] eqn:Er;
      [simpl in H|discriminate].
    injection H as <-. simpl. f_equal. eapply IH. exact Er.
Qed.

Lemma length_zip8 {A1 A2 A3 A4 A5 A6 A7 A8 : Type} (n : nat)
    (l1 : list A1) (l2 : list A2) (l3 : list A3) (l4 : list A4)
    (l5 : list A5) (l6 : list A6) (l7 : list A7) (l8 : list A8) :
  length l1 = n -> length l2 = n -> length l3 = n -> length l4 = n ->
  length l5 = n -> length l6 = n -> length l7 = n -> length l8 = n ->
  length (combine l1 (combine l2 (combine l3 (combine l4 (combine l5
            (combine l6 (combine l7 l8))))))) = n.
Proof.
  intros. rewrite !length_combine. lia.
Qed.

Lemma build_layers_dim0 w k ef manual alpha_init hp hps :
  build_layers w k 0 ef manual alpha_init (hp :: hps) = None.
Proof.
  destruct hp as (z1 & z2 & z3 & z4 & z5 & z6 & z7 & z8). simpl.
  destruct (nFeedforward_init w k 0 ef manual z5 z6 z7 z8); reflexivity.
Qed.

(** X3.  A stack of depth 0 or of width 0 cannot be constructed: [1. / depth]
    raises for [depth = 0] even when [alpha_init] is given, and
    [dim ** -0.5] raises for [dim = 0] when the first layer is created. *)
Theorem degenerate_sizes_raise (w : nat -> nat -> nat -> R) (c : config) :
  cfg_depth c = 0%nat \/ cfg_dim c = 0%nat ->
  nFeedforwards_init w c = None.
Proof.
  intros [H|H].
  - unfold nFeedforwards_init. cbv zeta. now rewrite H.
  - destruct (nFeedforwards_init w c) as [s|] eqn:E; [exfalso|reflexivity].
    destruct (nFeedforwards_init_layers _ _ E)
      as (Hd & l1 & l2 & l3 & l4 & l5 & l6 & l7 & l8 &
          H1 & H2 & H3 & H4 & H5 & H6 & H7 & H8 & Hb).
    apply cast_tuple_length in H1, H2, H3, H4, H5, H6, H7, H8.
    match type of Hb with
    | build_layers _ _ _ _ _ _ ?z = _ =>
        assert (Hz : length z = cfg_depth c) by (apply length_zip8; assumption)
    end.
    rewrite H in Hb.
    destruct (combine l1 _) as [|hp hps]; [simpl in Hz; congruence|].
    rewrite build_layers_dim0 in Hb. discriminate.
Qed.

Lemma degenerate_sizes_raise_witness :
  nFeedforwards_init (fun _ _ _ => 1)
    (scalar_cfg 4 0 None None (4 # 1) false 3 false (Some 1)
       None None None None 1 1 1 1) = None.
Proof.
  apply (@degenerate_sizes_raise (fun _ _ _ => 1)
           (scalar_cfg 4 0 None None (4 # 1) false 3 false (Some 1)
              None None None None 1 1 1 1)).
  left. reflexivity.
Defined.

(** X4.  A constructed stack has exactly [depth] layers, one per element of
    the zipped hyper-parameters, and every layer is a feedforward block of
    width [dim] wrapped with a step vector of size [dim]. *)
Theorem layers_count (w : nat -> nat -> nat -> R) (c : config) (s : nFeedforwards) :
  nFeedforwards_init w c = Some s ->
  length (layers s) = cfg_depth c /\
  layers s <> [] /\
  Forall (fun r => ff_dim (fn r) = cfg_dim c /\
                   length (Scale_forward (branch_scale r)) = cfg_dim c) (layers s).
Proof.
  intros E.
  destruct (nFeedforwards_init_layers _ _ E)
    as (Hd & l1 & l2 & l3 & l4 & l5 & l6 & l7 & l8 &
        H1 & H2 & H3 & H4 & H5 & H6 & H7 & H8 & Hb).
  apply cast_tuple_length in H1, H2, H3, H4, H5, H6, H7, H8.
  match type of Hb with
  | build_layers _ _ _ _ _ _ ?z = _ =>
      assert (Hz : length z = cfg_depth c) by (apply length_zip8; assumption)
  end.
  assert (Hlen : length (layers s) = cfg_depth c).
  { rewrite (build_layers_length _ _ _ _ _ _ _ Hb). exact Hz. }
  split; [exact Hlen|]. split.
  - intros Hnil. rewrite Hnil in Hlen. simpl in Hlen. congruence.
  - apply build_layers_ok in Hb. eapply Forall_impl; [|exact Hb].
    intros r [(Hdim & _) Hsc]. now split.
Qed.

Lemma layers_count_witness :
  exists s, nFeedforwards_init (fun _ _ _ => 1) self_check_cfg = Some s /\
            length (layers s) = 4%nat.
Proof.
  assert (Hs : exists s, nFeedforwards_init (fun _ _ _ => 1) self_check_cfg = Some s).
  { apply nFeedforwards_init_Some; try discriminate; lra. }
  destruct Hs as [s Hs]. exists s. split; [exact Hs|].
  exact (proj1 (@layers_count (fun _ _ _ => 1) self_check_cfg s Hs)).
Defined.

Lemma map_fst_zip {A B : Type} (a : list A) (b : list B) :
  length a = length b -> map fst (combine a b) = a.
Proof.
  revert b. induction a as [|x a IH]; intros [|y b] H; try discriminate;
    [reflexivity|]. simpl. f_equal. apply IH. now injection H.
Qed.

Lemma map_snd_zip {A B : Type} (a : list A) (b : list B) :
  length a = length b -> map snd (combine a b) = b.
Proof.
  revert b. induction a as [|x a IH]; intros [|y b] H; try discriminate;
    [reflexivity|]. simpl. f_equal. apply IH. now injection H.
Qed.

Lemma map_under_snd {A B C : Type} (f : B -> C) (a : list A) (b : list B) :
  length a = length b -> map (fun p => f (snd p)) (combine a b) = map f b.
Proof.
  intros H. rewrite <- (map_snd_zip a b H) at 2. now rewrite map_map.
Qed.

(** Which projections a constructed stack has. *)
Lemma nFeedforwards_init_projections w c s :
  nFeedforwards_init w c = Some s ->
  (proj_in s = None <->
   exists_ (cfg_dim_in c) || cfg_input_preserve_magnitude c = false) /\
  (proj_out s = None <-> cfg_dim_out c = None).
Proof.
  unfold nFeedforwards_init. cbv zeta.
  destruct (Nat.eqb_spec (cfg_depth c) 0) as [E0|E0]; [discriminate|]. simpl.
  repeat match goal with
         | |- bind (cast_tuple ?t ?n) _ = Some _ -> _ =>
             destruct (cast_tuple t n); [simpl|discriminate]
         end.
  match goal with
  | |- bind ?b _ = Some _ -> _ => destruct b as [ls|]; [simpl|discriminate]
  end.
  destruct (exists_ (cfg_dim_in c) || cfg_input_preserve_magnitude c).
  - destruct (Scale_init (cfg_dim c) 1 1); [simpl|discriminate].
    destruct (cfg_dim_out c) as [dim_out|].
    + destruct (pow_neg_half (cfg_dim c)) as [d|]; [simpl|discriminate].
      destruct (Scale_init dim_out 1 d); [simpl|discriminate].
      intros [= <-]. simpl. repeat split; discriminate.
    + simpl. intros [= <-]. simpl. repeat split; discriminate.
  - simpl. destruct (cfg_dim_out c) as [dim_out|].
    + destruct (pow_neg_half (cfg_dim c)) as [d|]; [simpl|discriminate].
      destruct (Scale_init dim_out 1 d); [simpl|discriminate].
      intros [= <-]. simpl. repeat split; discriminate.
    + simpl. intros [= <-]. simpl. repeat split.
Qed.

(** Each layer is built from the element of the zipped hyper-parameters
    at its position. *)
Lemma build_layers_built w dim ef manual alpha_init hps :
  forall k ls,
    build_layers w k dim ef manual alpha_init hps = Some ls ->
    Forall2 (layer_built_from dim alpha_init) hps ls.
Proof.
  induction hps as [|hp hps IH]; intros k ls H; simpl in H.
  - injection H as <-. constructor.
  - destruct hp as (z1 & z2 & z3 & z4 & z5 & z6 & z7 & z8).
    destruct (nFeedforward_init w k dim ef manual z5 z6 z7 z8) as [ff|] eqn:Eff;
      [simpl in H|discriminate].
    destruct (pow_neg_half dim) as [d|] eqn:Ed; [simpl in H|discriminate].
    destruct (Residual_init ff dim (default z3 alpha_init) (Some (default z4 d)))
      as [r|] eqn:Er; [simpl in H|discriminate].
    destruct (build_layers w (k + 3) dim ef manual alpha_init hps) as [rest|] eqn:Erest;
      [simpl in H|discriminate].
    injection H as <-. constructor; [|eapply IH; exact Erest].
    unfold Residual_init in Er. rewrite Ed in Er. cbn [bind default] in Er.
    destruct (Scale_init dim (default z3 alpha_init) (default z4 d)) as [sc|] eqn:Esc;
      [cbn [bind] in Er|discriminate].
    injection Er as <-. cbn [branch_scale fn].
    destruct (nFeedforward_init_inv _ _ _ _ _ _ _ _ _ Eff eq_refl)
      as [_ (hs & gs & Hhs & Hgs & ->)].
    exists d. cbn [hidden_scale gate_scale ff_dim_inner branch_scale fn].
    unfold hp_alpha_ff_init, hp_alpha_ff_scale, hp_s_ff_hidden_init,
      hp_s_ff_hidden_scale, hp_s_ff_gate_init, hp_s_ff_gate_scale. cbn [fst snd].
    repeat split; assumption.
Qed.

(** The columns of the zipped hyper-parameters are the tuples that were
    zipped. *)
Lemma zip_columns (n : nat) (l1 l2 l3 l4 : list (option R)) (l5 l6 l7 l8 : list R) :
  length l1 = n -> length l2 = n -> length l3 = n -> length l4 = n ->
  length l5 = n -> length l6 = n -> length l7 = n -> length l8 = n ->
  let z := combine l1 (combine l2 (combine l3 (combine l4 (combine l5
             (combine l6 (combine l7 l8)))))) in
  map hp_alpha_ff_init z = l3 /\ map hp_alpha_ff_scale z = l4 /\
  map hp_s_ff_hidden_init z = l5 /\ map hp_s_ff_hidden_scale z = l6 /\
  map hp_s_ff_gate_init z = l7 /\ map hp_s_ff_gate_scale z = l8.
Proof.
  intros H1 H2 H3 H4 H5 H6 H7 H8.
  assert (L8 : length (combine l7 l8) = n) by (rewrite length_combine; lia).
  assert (L6 : length (combine l6 (combine l7 l8)) = n) by (rewrite length_combine; lia).
  assert (L5 : length (combine l5 (combine l6 (combine l7 l8))) = n)
    by (rewrite length_combine; lia).
  assert (L4 : length (combine l4 (combine l5 (combine l6 (combine l7 l8)))) = n)
    by (rewrite length_combine; lia).
  assert (L3 : length (combine l3 (combine l4 (combine l5 (combine l6 (combine l7 l8)))))
               = n) by (rewrite length_combine; lia).
  assert (L2 : length (combine l2 (combine l3 (combine l4 (combine l5 (combine l6
                         (combine l7 l8)))))) = n) by (rewrite length_combine; lia).
  cbv zeta.
  unfold hp_alpha_ff_init, hp_alpha_ff_scale, hp_s_ff_hidden_init,
    hp_s_ff_hidden_scale, hp_s_ff_gate_init, hp_s_ff_gate_scale, layer_hparams.
  repeat split.
  - rewrite (map_under_snd (fun q => fst (snd q))) by congruence.
    rewrite (map_under_snd (fun q => fst q)) by congruence.
    apply map_fst_zip. congruence.
  - rewrite (map_under_snd (fun q => fst (snd (snd q)))) by congruence.
    rewrite (map_under_snd (fun q => fst (snd q))) by congruence.
    rewrite (map_under_snd (fun q => fst q)) by congruence.
    apply map_fst_zip. congruence.
  - rewrite (map_under_snd (fun q => fst (snd (snd (snd q))))) by congruence.
    rewrite (map_under_snd (fun q => fst (snd (snd q)))) by congruence.
    rewrite (map_under_snd (fun q => fst (snd q))) by congruence.
    rewrite (map_under_snd (fun q => fst q)) by congruence.
    apply map_fst_zip. congruence.
  - rewrite (map_under_snd (fun q => fst (snd (snd (snd (snd q)))))) by congruence.
    rewrite (map_under_snd (fun q => fst (snd (snd (snd q))))) by congruence.
    rewrite (map_under_snd (fun q => fst (snd (snd q)))) by congruence.
    rewrite (map_under_snd (fun q => fst (snd q))) by congruence.
    rewrite (map_under_snd (fun q => fst q)) by congruence.
    apply map_fst_zip. congruence.
  - rewrite (map_under_snd (fun q => fst (snd (snd (snd (snd (snd q))))))) by congruence.
    rewrite (map_under_snd (fun q => fst (snd (snd (snd (snd q)))))) by congruence.
    rewrite (map_under_snd (fun q => fst (snd (snd (snd q))))) by congruence.
    rewrite (map_under_snd (fun q => fst (snd (snd q)))) by congruence.
    rewrite (map_under_snd (fun q => fst (snd q))) by congruence.
    rewrite (map_under_snd (fun q => fst q)) by congruence.
    apply map_fst_zip. congruence.
  - rewrite (map_under_snd (fun q => snd (snd (snd (snd (snd (snd q))))))) by congruence.
    rewrite (map_under_snd (fun q => snd (snd (snd (snd (snd q)))))) by congruence.
    rewrite (map_under_snd (fun q => snd (snd (snd (snd q))))) by congruence.
    rewrite (map_under_snd (fun q => snd (snd (snd q)))) by congruence.
    rewrite (map_under_snd (fun q => snd (snd q))) by congruence.
    rewrite (map_under_snd (fun q => snd q)) by congruence.
    apply map_snd_zip. congruence.
Qed.

Lemma cast_tuple_Scalar_inv {A : Type} (t : hparam A) (n : nat) (l : list A) (v : A) :
  cast_tuple t n = Some l -> t = Scalar v -> l = repeat v n.
Proof.
  intros H ->. rewrite cast_tuple_Scalar in H. now injection H.
Qed.

(** C6.  A feedforward hyper-parameter given as a tuple whose length is
    not [depth] makes the construction raise.  A scalar is repeated [depth]
    times, and the construction is the one obtained with that tuple.  In a
    constructed stack there is one layer for each of the [depth] elements of
    the zipped hyper-parameters, each layer holds the learned scales created
    from the element at its position, and a hyper-parameter given as a
    scalar has that value in every element.  With scalars only, the
    construction returns as soon as the sizes are positive, the expansion
    factor is not negative and no scale is zero. *)
Theorem hparam_length_validation (w : nat -> nat -> nat -> R) (c : config) :
  (bad_length (cfg_alpha_ff_init c) (cfg_depth c) \/
   bad_length (cfg_alpha_ff_scale c) (cfg_depth c) \/
   bad_length (cfg_s_ff_hidden_init c) (cfg_depth c) \/
   bad_length (cfg_s_ff_hidden_scale c) (cfg_depth c) \/
   bad_length (cfg_s_ff_gate_init c) (cfg_depth c) \/
   bad_length (cfg_s_ff_gate_scale c) (cfg_depth c) ->
   nFeedforwards_init w c = None) /\
  (forall (A : Type) (v : A), cast_tuple (Scalar v) (cfg_depth c)
                              = Some (repeat v (cfg_depth c))) /\
  nFeedforwards_init w (broadcast_cfg c) = nFeedforwards_init w c /\
  (forall s,
     nFeedforwards_init w c = Some s ->
     exists hps : list layer_hparams,
       length hps = cfg_depth c /\
       length (layers s) = cfg_depth c /\
       Forall2 (layer_built_from (cfg_dim c)
                  (default (cfg_alpha_init c) (1 / INR (cfg_depth c))))
         hps (layers s) /\
       (forall v, cfg_alpha_ff_init c = Scalar v ->
                  map hp_alpha_ff_init hps = repeat v (cfg_depth c)) /\
       (forall v, cfg_alpha_ff_scale c = Scalar v ->
                  map hp_alpha_ff_scale hps = repeat v (cfg_depth c)) /\
       (forall v, cfg_s_ff_hidden_init c = Scalar v ->
                  map hp_s_ff_hidden_init hps = repeat v (cfg_depth c)) /\
       (forall v, cfg_s_ff_hidden_scale c = Scalar v ->
                  map hp_s_ff_hidden_scale hps = repeat v (cfg_depth c)) /\
       (forall v, cfg_s_ff_gate_init c = Scalar v ->
                  map hp_s_ff_gate_init hps = repeat v (cfg_depth c)) /\
       (forall v, cfg_s_ff_gate_scale c = Scalar v ->
                  map hp_s_ff_gate_scale hps = repeat v (cfg_depth c))) /\
  (forall dim depth dim_in dim_out ef ipm cs manual alpha_init a1 a2 a3 a4 s5 s6 s7 s8,
     dim <> 0%nat -> depth <> 0%nat -> (0 <= ef)%Q ->
     s6 <> 0 -> s8 <> 0 -> a4 <> Some 0 ->
     exists s,
       nFeedforwards_init w
         (scalar_cfg dim depth dim_in dim_out ef ipm cs manual alpha_init
            a1 a2 a3 a4 s5 s6 s7 s8) = Some s).
Proof.
  split; [|split; [|split; [|split]]].
  - intros H. unfold nFeedforwards_init. cbv zeta.
    destruct (cfg_depth c =? 0)%nat; [reflexivity|]. simpl.
    destruct H as [H|[H|[H|[H|[H|H]]]]];
      apply cast_tuple_bad in H; rewrite H; skip_binds.
  - intros A v. apply cast_tuple_Scalar.
  - unfold nFeedforwards_init, broadcast_cfg. cbv zeta. simpl.
    now rewrite !cast_tuple_broadcast.
  - intros s E.
    destruct (nFeedforwards_init_layers _ _ E)
      as (Hd & l1 & l2 & l3 & l4 & l5 & l6 & l7 & l8 &
          H1 & H2 & H3 & H4 & H5 & H6 & H7 & H8 & Hb).
    pose proof (cast_tuple_length _ _ H1) as N1.
    pose proof (cast_tuple_length _ _ H2) as N2.
    pose proof (cast_tuple_length _ _ H3) as N3.
    pose proof (cast_tuple_length _ _ H4) as N4.
    pose proof (cast_tuple_length _ _ H5) as N5.
    pose proof (cast_tuple_length _ _ H6) as N6.
    pose proof (cast_tuple_length _ _ H7) as N7.
    pose proof (cast_tuple_length _ _ H8) as N8.
    destruct (@zip_columns _ l1 l2 l3 l4 l5 l6 l7 l8 N1 N2 N3 N4 N5 N6 N7 N8)
      as (C3 & C4 & C5 & C6 & C7 & C8).
    pose proof (@length_zip8 _ _ _ _ _ _ _ _ _ l1 l2 l3 l4 l5 l6 l7 l8
                  N1 N2 N3 N4 N5 N6 N7 N8) as Hz.
    eexists. split; [exact Hz|]. split.
    { rewrite (build_layers_length _ _ _ _ _ _ _ Hb). exact Hz. }
    split; [exact (build_layers_built _ _ _ _ _ _ _ Hb)|].
    rewrite C3, C4, C5, C6, C7, C8.
    repeat split; intros v Hv; eapply cast_tuple_Scalar_inv; eassumption.
  - intros dim depth dim_in dim_out ef ipm cs manual alpha_init a1 a2 a3 a4
      s5 s6 s7 s8 Hdim Hdepth Hef H6 H8 H4.
    now apply nFeedforwards_init_Some.
Qed.

Lemma hparam_length_validation_witness :
  nFeedforwards_init (fun _ _ _ => 1) (cfg_example 4 (Tuple [1; 1; 1])) = None.
Proof.
  apply (proj1 (hparam_length_validation (fun _ _ _ => 1)
                  (cfg_example 4 (Tuple [1; 1; 1])))).
  right. right. left. exists [1; 1; 1]. split; [reflexivity|].
  simpl. lia.
Defined.

(** X6.  With scalar hyper-parameters, a positive width and depth, a
    non-negative expansion factor and non-zero scale hyper-parameters, the
    construction returns a stack of [depth] layers, with an input projection
    exactly when [dim_in] is given or [input_preserve_magnitude] is set and
    an output projection exactly when [dim_out] is given. *)
Theorem construction_succeeds (w : nat -> nat -> nat -> R) (dim depth : nat)
    (dim_in dim_out : option nat) (ef : Q) (ipm : bool) (cs : R) (manual : bool)
    (alpha_init a1 a2 a3 a4 : option R) (s5 s6 s7 s8 : R) :
  dim <> 0%nat -> depth <> 0%nat -> (0 <= ef)%Q ->
  s6 <> 0 -> s8 <> 0 -> a4 <> Some 0 ->
  exists s,
    nFeedforwards_init w
      (scalar_cfg dim depth dim_in dim_out ef ipm cs manual alpha_init
         a1 a2 a3 a4 s5 s6 s7 s8) = Some s /\
    length (layers s) = depth /\
    (proj_in s <> None <-> dim_in <> None \/ ipm = true) /\
    (proj_out s <> None <-> dim_out <> None).
Proof.
  intros Hdim Hdepth Hef H6 H8 H4.
  destruct (nFeedforwards_init_Some w dim_in dim_out ipm cs manual alpha_init
              a1 a2 a3 s5 s7 Hdim Hdepth Hef H6 H8 H4) as [s Hs].
  exists s. split; [exact Hs|].
  destruct (nFeedforwards_init_layers _ _ Hs)
    as (_ & l1 & l2 & l3 & l4 & l5 & l6 & l7 & l8 &
        H1 & H2 & H3 & H4' & H5 & H6' & H7 & H8' & Hb).
  apply cast_tuple_length in H1, H2, H3, H4', H5, H6', H7, H8'.
  assert (Hlen : length (layers s) = depth).
  { rewrite (build_layers_length _ _ _ _ _ _ _ Hb).
    apply length_zip8; assumption. }
  split; [exact Hlen|].
  destruct (nFeedforwards_init_projections _ _ Hs) as [Hin Hout].
  cbn [scalar_cfg cfg_dim_in cfg_dim_out cfg_input_preserve_magnitude] in Hin, Hout.
  split.
  - destruct dim_in, ipm; simpl in Hin; split; intros H;
      try (left; discriminate); try (right; reflexivity);
      try (intros Hn; apply Hin in Hn; discriminate);
      try (exfalso; apply H; apply Hin; reflexivity);
      try (destruct H; congruence).
  - destruct dim_out; split; intros H;
      try discriminate;
      try (intros Hn; apply Hout in Hn; discriminate);
      try (exfalso; apply H; apply Hout; reflexivity);
      try congruence.
Qed.

Lemma construction_succeeds_witness :
  exists s, nFeedforwards_init (fun _ _ _ => 1) self_check_cfg = Some s /\
            length (layers s) = 4%nat.
Proof.
  destruct (@construction_succeeds (fun _ _ _ => 1) 512 4 (Some 128%nat) (Some 128%nat)
              (4 # 1) true 3 false None None None None None 1 1 1 1)
    as (s & Hs & Hl & _); try discriminate; try lra.
  exists s. split; [exact Hs | exact Hl].
Defined.

(** ** More on Residual *)

(** X7.  [Residual(fn, dim, init, scale)] raises exactly when [dim] is 0
    (whether or not a scale is given) or the scale in use is 0; otherwise it
    wraps [fn], and its step is the [Scale(dim, init, scale)] created with
    the scale in use ([scale], or [dim ** -0.5] by default), whose learned
    vector has [dim] entries. *)
Theorem Residual_init_spec {F : Type} (f : F) (dim : nat) (init : R) (scale : option R) :
  (Residual_init f dim init scale = None <->
   dim = 0%nat \/ default scale (/ sqrt (INR dim)) = 0) /\
  (forall r, Residual_init f dim init scale = Some r ->
             fn r = f /\
             Scale_init dim init (default scale (/ sqrt (INR dim)))
             = Some (branch_scale r) /\
             length (Scale_scale (branch_scale r)) = dim).
Proof.
  unfold Residual_init. split.
  - destruct (Nat.eq_dec dim 0) as [->|Hd].
    + split; [now left | reflexivity].
    + rewrite (pow_neg_half_Some Hd). cbn [bind].
      destruct (Req_dec_T (default scale (/ sqrt (INR dim))) 0) as [E|E].
      * rewrite E, Scale_init_zero. split; [now right | reflexivity].
      * rewrite (Scale_init_Some _ _ E). cbn [bind]. split; [discriminate|].
        intros [H|H]; contradiction.
  - intros r H.
    destruct (Nat.eq_dec dim 0) as [->|Hd]; [discriminate|].
    rewrite (pow_neg_half_Some Hd) in H. cbn [bind] in H.
    destruct (Scale_init dim init (default scale (/ sqrt (INR dim)))) as [sc|] eqn:E;
      [cbn [bind] in H|discriminate].
    injection H as <-. cbn [fn branch_scale]. split; [reflexivity|].
    split; [reflexivity|].
    apply Scale_init_inv in E. destruct E as [_ ->]. cbn [Scale_scale].
    now rewrite length_map, repeat_length.
Qed.

(** X8.  When the wrapped module returns a tuple, [Residual.forward]
    returns a tuple with the same remainder, and its first element is the
    tensor it returns when the module returns the first element alone. *)
Theorem Residual_tuple_passthrough (F K X : Type)
    (call_p call_t : F -> tensor -> K -> option (output X))
    (r : Residual F) (x : tensor) (kwargs : K) (t : tensor) (rest : X) :
  call_p (fn r) x kwargs = Some (Plain t) ->
  call_t (fn r) x kwargs = Some (Tupled t rest) ->
  Residual_forward call_t r x kwargs
  = option_map (fun o => Tupled (primary o) rest) (Residual_forward call_p r x kwargs).
Proof.
  intros Hp Ht. unfold Residual_forward. rewrite Hp, Ht. cbn [bind].
  destruct (lerp x (l2norm t) (Scale_forward (branch_scale r))); reflexivity.
Qed.

Lemma Residual_tuple_passthrough_witness :
  exists r : Residual unit,
    Residual_forward id_tuple_call r (mkT [] 2 [[1; 0]]) tt
    = option_map (fun o => Tupled (primary o) tt)
        (Residual_forward id_call r (mkT [] 2 [[1; 0]]) tt).
Proof.
  destruct Residual_init_half as (r & _ & _). exists r.
  apply (@Residual_tuple_passthrough unit unit unit id_call id_tuple_call r
           (mkT [] 2 [[1; 0]]) tt (mkT [] 2 [[1; 0]]) tt); reflexivity.
Defined.


Lemma length_lerp_row (a b w : vec) (d : nat) :
  length a = d -> length b = d -> length w = d -> length (lerp_row a b w) = d.
Proof.
  intros Ha Hb Hw. unfold lerp_row.
  rewrite length_map2; [exact Ha|].
  rewrite length_map2; rewrite length_map2; congruence.
Qed.















(** ** More on NormLinear *)







(** ** More on the forward pass of a stack *)


Lemma layers_length w c s :
  nFeedforwards_init w c = Some s -> length (layers s) = cfg_depth c.
Proof.
  intros E.
  destruct (nFeedforwards_init_layers _ _ E)
    as (_ & l1 & l2 & l3 & l4 & l5 & l6 & l7 & l8 &
        H1 & H2 & H3 & H4 & H5 & H6 & H7 & H8 & Hb).
  apply cast_tuple_length in H1, H2, H3, H4, H5, H6, H7, H8.
  rewrite (build_layers_length _ _ _ _ _ _ _ Hb).
  apply length_zip8; assumption.
Qed.

Lemma NormLinear_forward_mismatch (nl : NormLinear) (x : tensor) (d d' : nat) :
  nl_shape nl d d' -> fdim x <> d -> NormLinear_forward nl x = None.
Proof.
  intros [Hd _] Hx. unfold NormLinear_forward, linear. rewrite Hd.
  apply Nat.eqb_neq in Hx. now rewrite Hx.
Qed.

(** X16.  On a constructed stack, an input whose trailing size is not the
    configured one ([dim_in], or [dim] when [dim_in] is not given) makes the
    forward pass raise: at the input projection when there is one, at the
    first layer otherwise. *)
Theorem wrong_input_size_raises (w : nat -> nat -> nat -> R) (c : config)
    (s : nFeedforwards) (x : tensor) :
  nFeedforwards_init w c = Some s ->
  fdim x <> default (cfg_dim_in c) (cfg_dim c) ->
  nFeedforwards_forward s x = None.
Proof.
  intros Hinit Hx.
  pose proof (layers_length _ _ Hinit) as Hlen.
  destruct (nFeedforwards_init_inv _ _ Hinit)
    as (Hdepth & Hls & _ & Hipm & _ & Hneed & Hin & _).
  unfold nFeedforwards_forward.
  destruct (need_proj_in s) eqn:En.
  - destruct (Hin eq_refl) as [-> (sc & -> & _)].
    rewrite Hipm.
    rewrite (@NormLinear_forward_mismatch _ _
               (default (cfg_dim_in c) (cfg_dim c)
                + (if cfg_input_preserve_magnitude c then 1 else 0)) (cfg_dim c)).
    + reflexivity.
    + apply NormLinear_init_shape.
    + destruct (cfg_input_preserve_magnitude c); cbn [fdim l2norm pad]; lia.
  - symmetry in Hneed. apply orb_false_iff in Hneed. destruct Hneed as [Hn1 Hn2].
    rewrite Hipm, Hn2. cbn [bind].
    destruct (cfg_dim_in c) as [di|] eqn:Edi; [discriminate|]. cbn [default] in Hx.
    destruct (layers s) as [|r ls]; [simpl in Hlen; congruence|].
    pose proof (Forall_inv Hls) as [(_ & Hh & _) _].
    cbn [run_layers]. unfold Residual_forward, call_ff, nFeedforward_forward.
    now rewrite (NormLinear_forward_mismatch _ Hh Hx).
Qed.

Lemma wrong_input_size_raises_witness :
  exists s,
    nFeedforwards_init (fun _ _ _ => 1) self_check_cfg = Some s /\
    nFeedforwards_forward s (mkT [2%nat] 5 [[1; 2; 3; 4; 5]; [1; 2; 3; 4; 5]]) = None.
Proof.
  assert (Hs : exists s, nFeedforwards_init (fun _ _ _ => 1) self_check_cfg = Some s).
  { apply nFeedforwards_init_Some; try discriminate; lra. }
  destruct Hs as [s Hs]. exists s. split; [exact Hs|].
  apply (@wrong_input_size_raises (fun _ _ _ => 1) self_check_cfg s _ Hs).
  cbn. lia.
Defined.


(** *** The zero input *)


















(** ** Evaluations in binary floating point *)

(** Inside the range of float32 the learned vector and the value of a fresh
    [Scale] can be exact: [Scale(3, 0.5, 0.25)] holds 0.25 and evaluates to
    0.5. *)
Example Scale_exact_in_range :
  exists s,
    Scale_init_b32 3 (b64_of_ratio 1 2) (b64_of_ratio 1 4) = Some s /\
    Scale_b32_scale s = repeat (b32 1 4) 3 /\
    Scale_forward_b32 s = repeat (b32 1 2) 3.
Proof.
  eexists. split; [vm_compute; reflexivity|].
  split; vm_compute; reflexivity.
Qed.

(** A second normalization changes a float32 vector of unit norm by one
    unit in the last place: the row [[1; 2; 3]] is
    [[0.26726124; 0.53452247; 0.80178368]] after one [F.normalize] and
    [[0.26726127; 0.53452253; 0.80178374]] after two.  So [norm_weights_] is
    not idempotent on this row either, and the two modes of [NormLinear]
    constructed from it use weights that differ. *)
Example normalize_b32_rounding :
  normalize_b32 [b32 1 1; b32 2 1; b32 3 1]
  = [S754_finite false 8967799 (-25); S754_finite false 8967799 (-24);
     S754_finite false 13451698 (-24)] /\
  normalize_b32 (normalize_b32 [b32 1 1; b32 2 1; b32 3 1])
  = [S754_finite false 8967800 (-25); S754_finite false 8967800 (-24);
     S754_finite false 13451699 (-24)].
Proof.
  split; vm_compute; reflexivity.
Qed.

(** Above [norm_max] the squared norm overflows: [[1e30; 0]] is sent to the
    zero vector.  A row of norm 1e-13, below [eps], is sent to norm 0.1 and
    to norm 1 by a second normalization, as in exact arithmetic. *)
Example normalize_b32_range :
  normalize_b32 [b32 (10 ^ 30) 1; b32 0 1] = [S754_zero false; S754_zero false] /\
  normalize_b32 [b32 1 (10 ^ 13)] = [b32 1 10] /\
  normalize_b32 (normalize_b32 [b32 1 (10 ^ 13)]) = [b32 1 1].
Proof.
  repeat split; vm_compute; reflexivity.
Qed.

(** The blend of [Residual.forward] on [x = [1; 0]] with the normalized
    branch output [[-1; 0]]: with the step 0.5 of
    [Residual(fn, 2, 0.5, scale = 1.)] the returned vector is [[0; 0]]; with
    the step 0.49999997 of [Residual(fn, 2, 0.5)] it is [[1; 0]]. *)
Example Residual_blend_b32_steps :
  Residual_blend_b32 [b32 1 1; b32 0 1] [b32 (-1) 1; b32 0 1] (b32 1 2)
  = [S754_zero false; S754_zero false] /\
  Residual_blend_b32 [b32 1 1; b32 0 1] [b32 (-1) 1; b32 0 1]
    (S754_finite false 16777215 (-25))
  = [b32 1 1; S754_zero false].
Proof.
  split; vm_compute; reflexivity.
Qed.
